(** * Flashcards (Modified-Leitner) — a shallow embedding of [src/algorithm.ts]

    The TypeScript functions work on JavaScript objects: a [Set<Flashcard>] is
    a mutable object that several containers may reference at once, and a
    [Map<number, Set<Flashcard>>] holds references to such objects.  The
    embedding therefore has an explicit heap of [Set] objects; a bucket map
    and a bucket array hold locations of that heap, and every function that
    allocates or mutates a [Set] threads the heap. *)

From Stdlib Require Import ZArith List Lia.
From stdpp Require Import base numbers option list strings gmap.

Open Scope Z_scope.

#[local] Set Warnings "-clear-no-such-hyp".

(** ** Cards and Set objects *)

(** A [Set<Flashcard>] compares its members by object identity, so inside the
    bucket structures a flashcard is the reference of its object. *)
Definition cardref := nat.

(** Locations of [Set] objects. *)
Definition loc := positive.

(** The heap: every allocated [Set<Flashcard>] object with its members. *)
Abbreviation heap := (gmap loc (gset cardref)).

(** The members of the [Set] at [l]. *)
Definition contents (σ : heap) (l : loc) : gset cardref :=
  default ∅ (σ !! l).

(** [new Set()] *)
Definition Set_new (σ : heap) : heap * loc :=
  let l := fresh (dom σ) in (<[l := ∅]> σ, l).

(** [s.has(c)] *)
Definition Set_has (σ : heap) (s : loc) (c : cardref) : bool :=
  bool_decide (c ∈ contents σ s).

(** [s.delete(c)] *)
Definition Set_delete (σ : heap) (s : loc) (c : cardref) : heap :=
  <[s := contents σ s ∖ {[c]}]> σ.

(** [s.add(c)] *)
Definition Set_add (σ : heap) (s : loc) (c : cardref) : heap :=
  <[s := contents σ s ∪ {[c]}]> σ.

(** [s.size] *)
Definition Set_size (σ : heap) (s : loc) : nat :=
  size (contents σ s).

(** ** JavaScript arrays

    An array is a sequence of slots; a slot that was never written is a hole
    ([None]).  Writing at an index past the end extends the array, leaving
    holes in between. *)
Abbreviation jsarray A := (list (option A)).

Definition Array_write {A} (i : nat) (x : A) (a : jsarray A) : jsarray A :=
  if decide (i < length a)%nat then <[i := Some x]> a
  else a ++ replicate (i - length a) None ++ [Some x].

(** [a[k] = x] for a number [k]: a negative [k] names an ordinary property of
    the array object, not one of its elements. *)
Definition Array_set {A} (k : Z) (x : A) (a : jsarray A) : jsarray A :=
  if decide (0 <= k) then Array_write (Z.to_nat k) x a else a.

(** [a[i]] for an element index [i]; [None] stands for [undefined]. *)
Definition Array_get {A} (i : nat) (a : jsarray A) : option A :=
  mjoin (a !! i).

(** ** Numbers

    A JavaScript number is a double.  The bucket numbers of the model are
    integers (doubles below 2^1024 in magnitude).  An integer of magnitude at
    most 2^53 is a double; [x + 1] and [x - 1] are the exact result rounded to
    the nearest double, ties going to the even significand of 53 bits. *)

(** [Number.MAX_SAFE_INTEGER], 2^53 - 1. *)
Definition MAX_SAFE_INTEGER : Z := 9007199254740991.

(** The double nearest to the integer [z]. *)
Definition round_double (z : Z) : Z :=
  let a := Z.abs z in
  if decide (a <= 9007199254740992) then z
  else
    let e := Z.log2 a - 52 in
    let q := a / 2 ^ e in
    let r := a mod 2 ^ e in
    let half := 2 ^ (e - 1) in
    let q' := if decide (r < half) then q
              else if decide (half < r) then q + 1
              else if Z.even q then q else q + 1 in
    Z.sgn z * (q' * 2 ^ e).

(** ** Bucket maps *)

(** Modelled from the spec: the type [BucketMap] is declared in
    [flashcards.ts], which is not among the sources; the spec and the tests
    have it as [Map<number, Set<Flashcard>>], from bucket numbers to sets of
    cards.  A JavaScript [Map] iterates in insertion order, so it is the list
    of its entries; the values are references to [Set] objects.  Bucket
    numbers are integer-valued numbers. *)
Definition BucketMap := list (Z * loc).

(** [m.get(k)] *)
Fixpoint Map_get (k : Z) (m : BucketMap) : option loc :=
  match m with
  | [] => None
  | (k', s) :: m' => if decide (k = k') then Some s else Map_get k m'
  end.

(** [m.has(k)] *)
Definition Map_has (k : Z) (m : BucketMap) : bool :=
  bool_decide (is_Some (Map_get k m)).

(** [m.set(k, s)]: an existing key keeps its place, a new key goes last. *)
Fixpoint Map_set (k : Z) (s : loc) (m : BucketMap) : BucketMap :=
  match m with
  | [] => [(k, s)]
  | (k', s') :: m' =>
      if decide (k = k') then (k, s) :: m' else (k', s') :: Map_set k s m'
  end.

(** [new Map(m)]: a new map object with the same entries, that is, with
    references to the same [Set] objects. *)
Definition Map_copy (m : BucketMap) : BucketMap := m.

Definition keys (m : BucketMap) : list Z := m.*1.
Definition sets (m : BucketMap) : list loc := m.*2.

(** ** [toBucketSets] *)

(** [Math.max(...buckets.keys(), -1)] *)
Definition max_key (m : BucketMap) : Z :=
  foldr Z.max (-1) (keys m).

(** How a call that builds an array ends: with the array, or with the
    [RangeError] thrown for an invalid array length. *)
Inductive array_completion :=
  | Returns_array (a : jsarray loc)
  | Throws_RangeError.

(** The largest length an array can have, 2^32 - 1. *)
Definition MAX_ARRAY_LENGTH : Z := 4294967295.

(** The filling loop of [Array.from({ length: n }, () => new Set())]: slot
    after slot, a new set. *)
Fixpoint Array_from_new_sets (n : nat) (σ : heap) : heap * jsarray loc :=
  match n with
  | O => (σ, [])
  | S n' =>
      let '(σ1, s) := Set_new σ in
      let '(σ2, a) := Array_from_new_sets n' σ1 in
      (σ2, Some s :: a)
  end.

(** The loop [for (const [bucketNumber, flashcardSet] of buckets.entries())]. *)
Fixpoint fill_buckets (entries : BucketMap) (bucketArray : jsarray loc)
  : jsarray loc :=
  match entries with
  | [] => bucketArray
  | (bucketNumber, flashcardSet) :: rest =>
      fill_buckets rest (Array_set bucketNumber flashcardSet bucketArray)
  end.

(** [Array.from({ length: n }, () => new Set())]: the array is created with
    length [n] before any slot is filled, and creating an array longer than
    2^32 - 1 throws a [RangeError]; no set has been allocated then. *)
Definition Array_from (n : Z) (σ : heap) : heap * array_completion :=
  if decide (n <= MAX_ARRAY_LENGTH) then
    let '(σ', a) := Array_from_new_sets (Z.to_nat n) σ in (σ', Returns_array a)
  else (σ, Throws_RangeError).

Definition toBucketSets (σ : heap) (buckets : BucketMap)
  : heap * array_completion :=
  let maxBucket := max_key buckets in
  match Array_from (maxBucket + 1) σ with
  | (σ', Returns_array bucketArray) =>
      (σ', Returns_array (fill_buckets buckets bucketArray))
  | (σ', Throws_RangeError) => (σ', Throws_RangeError)
  end.

(** ** [getBucketRange] *)

(** How a call ends: with a value, or with the [TypeError] that reading a
    property of [undefined] throws. *)
Inductive completion (A : Type) :=
  | Returns (a : A)
  | Throws_TypeError.
Arguments Returns {A} a.
Arguments Throws_TypeError {A}.

Record BucketRange := {
  minBucket : Z;
  maxBucket : Z;
}.

(** [buckets.findIndex(bucket => bucket.size > 0)], from [index] on.
    [findIndex] visits every index below the length, holes included; at a
    hole the callback receives [undefined], and [bucket.size] throws. *)
Fixpoint findIndex_nonempty (σ : heap) (buckets : jsarray loc) (index : nat)
  : completion Z :=
  match buckets with
  | [] => Returns (-1)
  | None :: _ => Throws_TypeError
  | Some bucket :: rest =>
      if decide (0 < Set_size σ bucket)%nat then Returns (Z.of_nat index)
      else findIndex_nonempty σ rest (S index)
  end.

(** [buckets.reduceRight((foundIndex, bucket, index) =>
      foundIndex === -1 && bucket.size > 0 ? index : foundIndex, init)],
    for the part of the array from [index] on.  [reduceRight] goes from the
    last index down and skips holes. *)
Fixpoint reduceRight_nonempty (σ : heap) (buckets : jsarray loc) (index : nat)
    (init : Z) : Z :=
  match buckets with
  | [] => init
  | x :: rest =>
      let foundIndex := reduceRight_nonempty σ rest (S index) init in
      match x with
      | None => foundIndex
      | Some bucket =>
          if bool_decide (foundIndex = -1) && bool_decide (0 < Set_size σ bucket)%nat
          then Z.of_nat index else foundIndex
      end
  end.

(** The result [None] is [undefined]. *)
Definition getBucketRange (σ : heap) (buckets : jsarray loc)
  : completion (option BucketRange) :=
  match findIndex_nonempty σ buckets 0 with
  | Throws_TypeError => Throws_TypeError
  | Returns minBucket =>
      if decide (minBucket = -1) then Returns None
      else
        let maxBucket := reduceRight_nonempty σ buckets 0 (-1) in
        Returns (Some {| minBucket := minBucket; maxBucket := maxBucket |})
  end.

(** ** [practice] *)

(** The body allocates the result set and returns it; the loop that would
    fill it is commented out in the source, and neither [buckets] nor [day]
    is read. *)
Definition practice (σ : heap) (buckets : jsarray loc) (day : Z) : heap * loc :=
  let '(σ', practiceCards) := Set_new σ in
  (σ', practiceCards).

(** ** [update] *)

(** Modelled from the spec: the enumeration [AnswerDifficulty] is declared
    in [flashcards.ts], which is not among the sources; the spec gives the
    outcome three levels, Wrong, Hard and Easy, and [update] and the tests
    use exactly these. *)
Inductive AnswerDifficulty := Wrong | Hard | Easy.

(** The search loop of [update]: the first entry, in iteration order, whose
    set has the card gives [currentBucket]; the card is deleted from that set
    and the loop stops. *)
Fixpoint find_and_delete (σ : heap) (card : cardref) (entries : BucketMap)
    (currentBucket : Z) : heap * Z :=
  match entries with
  | [] => (σ, currentBucket)
  | (bucketNum, cardSet) :: rest =>
      if Set_has σ cardSet card
      then (Set_delete σ cardSet card, bucketNum)
      else find_and_delete σ card rest currentBucket
  end.

(** The [switch (difficulty)]. *)
Definition new_bucket (difficulty : AnswerDifficulty) (currentBucket : Z) : Z :=
  match difficulty with
  | Wrong => 0
  | Hard => Z.max 0 (round_double (currentBucket - 1))
  | Easy => Z.min 4 (round_double (currentBucket + 1))
  end.

Definition update (σ : heap) (buckets : BucketMap) (card : cardref)
    (difficulty : AnswerDifficulty) : heap * BucketMap :=
  let updatedBuckets := Map_copy buckets in
  let '(σ1, currentBucket) := find_and_delete σ card updatedBuckets (-1) in
  let currentBucket := if decide (currentBucket = -1) then 0 else currentBucket in
  let newBucket := new_bucket difficulty currentBucket in
  let '(σ2, updatedBuckets) :=
    if Map_has newBucket updatedBuckets then (σ1, updatedBuckets)
    else let '(σ', s) := Set_new σ1 in (σ', Map_set newBucket s updatedBuckets) in
  match Map_get newBucket updatedBuckets with
  | Some s => (Set_add σ2 s card, updatedBuckets)
  | None => (σ2, updatedBuckets)
  end.

(** A sequence of [update] calls, each on the map returned by the one before. *)
Fixpoint updates (σ : heap) (buckets : BucketMap)
    (trials : list (cardref * AnswerDifficulty)) : heap * BucketMap :=
  match trials with
  | [] => (σ, buckets)
  | (card, difficulty) :: rest =>
      let '(σ', buckets') := update σ buckets card difficulty in
      updates σ' buckets' rest
  end.

(** ** [getHint] *)

(** A JavaScript string is a sequence of UTF-16 code units. *)
Definition jsstring := list N.

(** A string literal of the source. *)
Definition lit (s : string) : jsstring :=
  map Ascii.N_of_ascii (String.list_ascii_of_string s).
Arguments lit s%_string_scope.

(** Modelled from the spec: the [Flashcard] class is declared in
    [flashcards.ts], which is not among the sources; the spec gives a card a
    front text, a back text, an optional hint text and an ordered list of tag
    strings.  An absent hint ([undefined]) is [None]. *)
Record Flashcard := {
  front : jsstring;
  back : jsstring;
  hint : option jsstring;
  tags : list jsstring;
}.

(** The code units that [String.prototype.trim] strips: ECMAScript's
    WhiteSpace and LineTerminator. *)
Definition is_white_space (u : N) : bool :=
  match u with
  | 0x0009 | 0x000A | 0x000B | 0x000C | 0x000D | 0x0020 | 0x00A0
  | 0x1680 | 0x2028 | 0x2029 | 0x202F | 0x205F | 0x3000 | 0xFEFF => true
  | _ => (0x2000 <=? u)%N && (u <=? 0x200A)%N
  end%N.

Fixpoint trim_start (s : jsstring) : jsstring :=
  match s with
  | [] => []
  | u :: s' => if is_white_space u then trim_start s' else s
  end.

(** [s.trim()] *)
Definition trim (s : jsstring) : jsstring :=
  rev (trim_start (rev (trim_start s))).

(** [a.join(sep)] *)
Fixpoint join (sep : jsstring) (a : list jsstring) : jsstring :=
  match a with
  | [] => []
  | [x] => x
  | x :: a' => x ++ sep ++ join sep a'
  end.

(** [s.slice(0, n)] *)
Definition slice0 (n : nat) (s : jsstring) : jsstring := take n s.

(** [card.hint && card.hint.trim() !== ''] *)
Definition hint_is_usable (h : option jsstring) : bool :=
  match h with
  | None => false
  | Some [] => false
  | Some s => negb (bool_decide (trim s = []))
  end.

Definition getHint (card : Flashcard) : jsstring :=
  if hint_is_usable (hint card) then default [] (hint card)
  else if decide (0 < length (tags card))%nat then
    lit "Try to remember a card related to: " ++ join (lit ", ") (tags card)
  else
    lit "First few characters: " ++ slice0 5 (front card) ++ lit "...".

(** ** [computeProgress] *)

(** The values the untyped parameters ([any]) may receive, as far as
    [computeProgress] can tell them apart.  The function reads nothing of a
    primitive value, so a primitive is represented by its type.
    - [JArray a] is an array whose slots hold [Set] objects, or are holes;
    - [JMap m] is a [Map] from numbers to [Set] objects;
    - [JObject false] is any other object that is not a [Proxy] and has not
      [Map.prototype] on its prototype chain: a plain object, a [Set], a
      function, a class instance;
    - [JObject true] is an object that is not a [Map] (it has no map data) but
      has [Map.prototype] on its prototype chain and inherits [entries] from
      it, such as [Object.create(Map.prototype)];
    - [JRevokedProxy] is a [Proxy] that has been revoked.
    A [Proxy] that is not revoked runs the code of its handler and has no
    constructor here. *)
Inductive jsany :=
  | JUndefined
  | JNull
  | JBoolean
  | JNumber
  | JString
  | JSymbol
  | JBigInt
  | JArray (a : jsarray loc)
  | JMap (m : BucketMap)
  | JObject (inherits_Map_prototype : bool)
  | JRevokedProxy.

#[global] Instance completion_bind : MBind completion :=
  λ A B k c, match c with
             | Returns a => k a
             | Throws_TypeError => Throws_TypeError
             end.

(** [Array.isArray(v)]; on a revoked [Proxy] it throws a [TypeError]. *)
Definition isArray (v : jsany) : completion bool :=
  match v with
  | JArray _ => Returns true
  | JRevokedProxy => Throws_TypeError
  | _ => Returns false
  end.

(** [v instanceof Map]: whether [Map.prototype] is on the prototype chain
    of [v]; [false] for a primitive; asking a revoked [Proxy] for its
    prototype throws a [TypeError]. *)
Definition instanceofMap (v : jsany) : completion bool :=
  match v with
  | JMap _ => Returns true
  | JObject inherits_Map_prototype => Returns inherits_Map_prototype
  | JRevokedProxy => Throws_TypeError
  | _ => Returns false
  end.

(** The slots of an array, for a value on which [Array.isArray] holds. *)
Definition Array_slots (v : jsany) : jsarray loc :=
  match v with JArray a => a | _ => [] end.

(** [v.entries()] for a value that has [Map.prototype.entries]: the method
    throws a [TypeError] on a receiver that is not a [Map]. *)
Definition Map_entries (v : jsany) : completion BucketMap :=
  match v with JMap m => Returns m | _ => Throws_TypeError end.

(** What a value is, whatever the two tests above answer. *)
Definition is_array (v : jsany) : bool :=
  match v with JArray _ => true | _ => false end.
Definition is_map (v : jsany) : bool :=
  match v with JMap _ => true | _ => false end.

Record Progress := {
  totalCards : nat;
  bucketDistribution : jsarray nat;
}.

(** [buckets.forEach((bucket, index) => ...)]; [forEach] skips holes. *)
Fixpoint progress_forEach (σ : heap) (buckets : jsarray loc) (index : nat)
    (acc : Progress) : Progress :=
  match buckets with
  | [] => acc
  | None :: rest => progress_forEach σ rest (S index) acc
  | Some bucket :: rest =>
      let bucketSize := Set_size σ bucket in
      progress_forEach σ rest (S index)
        {| totalCards := totalCards acc + bucketSize;
           bucketDistribution :=
             Array_write index bucketSize (bucketDistribution acc) |}
  end.

(** [for (const [bucketNum, cardSet] of buckets.entries())] *)
Fixpoint progress_entries (σ : heap) (entries : BucketMap) (acc : Progress)
  : Progress :=
  match entries with
  | [] => acc
  | (bucketNum, cardSet) :: rest =>
      let bucketSize := Set_size σ cardSet in
      progress_entries σ rest
        {| totalCards := totalCards acc + bucketSize;
           bucketDistribution :=
             Array_set bucketNum bucketSize (bucketDistribution acc) |}
  end.

Definition computeProgress (σ : heap) (buckets : jsany) (history : jsany)
  : completion Progress :=
  let acc := {| totalCards := 0; bucketDistribution := [] |} in
  is_array ← isArray buckets;
  if is_array : bool then
    Returns (progress_forEach σ (Array_slots buckets) 0 acc)
  else
    is_map ← instanceofMap buckets;
    if is_map : bool then
      entries ← Map_entries buckets;
      Returns (progress_entries σ entries acc)
    else Returns acc.

(** * Specification-level notions *)

(** ** The logical state held by a bucket map *)

(** Card [c] is in bucket [k] of map [m], read in heap [σ]. *)
Definition in_bucket (σ : heap) (m : BucketMap) (k : Z) (c : cardref) : Prop :=
  ∃ s, Map_get k m = Some s ∧ c ∈ contents σ s.

(** The exclusivity invariant: a card is in at most one bucket. *)
Definition exclusive (σ : heap) (m : BucketMap) : Prop :=
  ∀ c k1 k2, in_bucket σ m k1 c → in_bucket σ m k2 c → k1 = k2.

(** The number of cards, summed over the buckets. *)
Definition total_cards (σ : heap) (m : BucketMap) : nat :=
  sum_list ((λ e, Set_size σ e.2) <$> m).

(** What holds of every [Map] object in every heap: its keys are distinct
    and its values are live [Set] objects. *)
Definition map_ok (σ : heap) (m : BucketMap) : Prop :=
  NoDup (keys m) ∧ Forall (λ s, s ∈ dom σ) (sets m).

(** Distinct buckets are distinct [Set] objects. *)
Definition separate (m : BucketMap) : Prop := NoDup (sets m).

(** Bucket numbers are non-negative. *)
Definition nonneg_keys (m : BucketMap) : Prop := Forall (λ k, 0 <= k) (keys m).

(** Every bucket number is below 2^32 - 1, so that the array form, one slot
    longer than the largest of them, is no longer than an array can be. *)
Definition index_keys (m : BucketMap) : Prop :=
  Forall (λ k, k < MAX_ARRAY_LENGTH) (keys m).

(** Card [c] is in the set at index [k] of the array [a]. *)
Definition in_slot (σ : heap) (a : jsarray loc) (k : Z) (c : cardref) : Prop :=
  0 <= k ∧ ∃ s, Array_get (Z.to_nat k) a = Some s ∧ c ∈ contents σ s.

(** Exclusivity read off the entries: two entries with different keys have
    disjoint sets.  It is decidable, and sufficient for [exclusive]. *)
Definition exclusive_entries (σ : heap) (m : BucketMap) : Prop :=
  Forall (λ e1, Forall (λ e2, e1.1 = e2.1 ∨ contents σ e1.2 ## contents σ e2.2) m) m.

(** ** The selection policy of the spec, to compare with [practice]

    Bucket 0 is due every day; bucket [i] for [i] in 1..4 is due on day [d]
    when [d mod r_i = 0], with intervals 4, 10, 30, 100; no bucket beyond 4
    is selected. *)
Definition review_interval (i : nat) : option Z :=
  match i with
  | 1%nat => Some 4
  | 2%nat => Some 10
  | 3%nat => Some 30
  | 4%nat => Some 100
  | _ => None
  end.

Definition due (i : nat) (day : Z) : bool :=
  match i with
  | O => true
  | _ => match review_interval i with
         | Some r => bool_decide (day `mod` r = 0)
         | None => false
         end
  end.

(** The union of the cards in the buckets due on [day]. *)
Definition practice_spec (σ : heap) (buckets : jsarray loc) (day : Z)
  : gset cardref :=
  ⋃ (imap (λ i x, match x with
                  | Some s => if due i day then contents σ s else ∅
                  | None => ∅
                  end) buckets).

(** ** Auxiliary notions of the proofs *)

(** What the second half of [update] does to the heap [σ1] left by the
    search: the card is added to the set of bucket [nb], which is a fresh set
    appended to the map when the map has no such key. *)
Definition placed (σ1 : heap) (m : BucketMap) (nb : Z) (c : cardref)
    (r : heap * BucketMap) : Prop :=
  (∃ s, Map_get nb m = Some s ∧ r = (<[s := contents σ1 s ∪ {[c]}]> σ1, m))
  ∨ (Map_get nb m = None ∧
     let s := fresh (dom σ1) in
     r = (<[s := {[c]}]> σ1, m ++ [(nb, s)])).

(** The bucket [update] moves the card to. *)
Definition target (σ : heap) (m : BucketMap) (c : cardref)
    (d : AnswerDifficulty) : Z :=
  let cb := (find_and_delete σ c m (-1)).2 in
  new_bucket d (if decide (cb = -1) then 0 else cb).

(** The number of cards in the sets of an array. *)
Fixpoint array_total (σ : heap) (a : jsarray loc) : nat :=
  match a with
  | [] => 0
  | None :: rest => array_total σ rest
  | Some s :: rest => size (contents σ s) + array_total σ rest
  end.

(** The text has a code unit that is not white space. *)
Definition has_text (s : jsstring) : Prop :=
  Exists (λ u, is_white_space u = false) s.

(** ** Example states *)

Definition card1 : cardref := 1%nat.
Definition card2 : cardref := 2%nat.
Definition card3 : cardref := 3%nat.

(** [new Map([[2, new Set([card1])]])] *)
Definition heap_one : heap := {[ 1%positive := {[ card1 ]} ]}.
Definition map_one : BucketMap := [(2, 1%positive)].

(** [new Map([[7, new Set([card1])]])] *)
Definition map_high : BucketMap := [(7, 1%positive)].

(** [new Map([[2 ** 53 + 2, new Set([card1])]])] *)
Definition map_unsafe : BucketMap := [(9007199254740994, 1%positive)].

(** [new Map([[2 ** 32 - 1, new Set([card1])]])] *)
Definition map_huge : BucketMap := [(4294967295, 1%positive)].

(** [new Map([[0, new Set([card1])], [3, new Set([card2])], [5, new Set([card3])]])] *)
Definition heap_three : heap :=
  {[ 1%positive := {[ card1 ]}; 2%positive := {[ card2 ]};
     3%positive := {[ card3 ]} ]}.
Definition map_three : BucketMap :=
  [(0, 1%positive); (3, 2%positive); (5, 3%positive)].

(** [new Map([[0, new Set([card1])], [2, new Set()]])] and
    [new Map([[2, new Set()]])] *)
Definition heap_trailing : heap := {[ 1%positive := {[ card1 ]}; 2%positive := ∅ ]}.
Definition map_trailing : BucketMap := [(0, 1%positive); (2, 2%positive)].
Definition map_only_empty : BucketMap := [(2, 2%positive)].

(** [const s = new Set(); new Map([[0, s], [1, s]])]: one [Set] object under
    two keys. *)
Definition heap_shared : heap := {[ 1%positive := ∅ ]}.
Definition map_shared : BucketMap := [(0, 1%positive); (1, 1%positive)].

(** [const s = new Set(); new Map([[0, s], [1, s], [2, new Set([card1])]])] *)
Definition heap_shared_tracked : heap :=
  {[ 1%positive := ∅; 2%positive := {[ card1 ]} ]}.
Definition map_shared_tracked : BucketMap :=
  [(0, 1%positive); (1, 1%positive); (2, 2%positive)].

(** [[new Set([card1]), new Set(), new Set(), new Set()]] *)
Definition heap_array : heap :=
  {[ 1%positive := {[ card1 ]}; 2%positive := ∅; 3%positive := ∅;
     4%positive := ∅ ]}.
Definition array_four : jsarray loc :=
  [Some 1%positive; Some 2%positive; Some 3%positive; Some 4%positive].

(** Cards for [getHint]. *)
Definition card_blank_hint : Flashcard :=
  {| front := lit "Front"; back := lit "Back"; hint := Some (lit " ");
     tags := [lit "x"] |}.
Definition card_tagged : Flashcard :=
  {| front := lit "Front"; back := lit "Back"; hint := Some [];
     tags := [lit "history"; lit "science"] |}.

(** [[new Set(), new Set([card1]), new Set([card2]), new Set()]] *)
Definition heap_range : heap :=
  {[ 1%positive := ∅; 2%positive := {[ card1 ]}; 3%positive := {[ card2 ]};
     4%positive := ∅ ]}.
Definition array_range : jsarray loc :=
  [Some 1%positive; Some 2%positive; Some 3%positive; Some 4%positive].

(** An array with a hole at index 1, as [[s1, , s2]]. *)
Definition array_hole : jsarray loc :=
  [Some 1%positive; None; Some 2%positive].

(** * Lemmas *)

(** ** Maps *)

Lemma Map_get_Some_elem k s m : Map_get k m = Some s → (k, s) ∈ m.
Proof.
  induction m as [|[k' s'] m IH]; simpl; [done|].
  case_decide as Hk.
  - intros [= ->]. subst. left.
  - intros H. right. by apply IH.
Qed.

Lemma Map_get_None k m : Map_get k m = None ↔ k ∉ keys m.
Proof.
  unfold keys. induction m as [|[k' s'] m IH]; simpl.
  - split; [intros _; apply not_elem_of_nil | done].
  - rewrite not_elem_of_cons. case_decide as Hk; [|rewrite IH].
    + split; [done | by intros [? _]].
    + tauto.
Qed.

Lemma elem_Map_get k s m : NoDup (keys m) → (k, s) ∈ m → Map_get k m = Some s.
Proof.
  unfold keys. induction m as [|[k' s'] m IH]; simpl.
  - intros _ H. by apply elem_of_nil in H.
  - intros [Hk' Hnd]%NoDup_cons [Heq|Hin]%elem_of_cons.
    + injection Heq as -> ->. by rewrite decide_True.
    + rewrite decide_False; [by apply IH|].
      intros ->. apply Hk'. apply list_elem_of_fmap. by exists (k', s).
Qed.

Lemma Map_get_sets k s m : Map_get k m = Some s → s ∈ sets m.
Proof.
  intros H%Map_get_Some_elem. apply list_elem_of_fmap. by exists (k, s).
Qed.

Lemma Map_set_new k s m : Map_get k m = None → Map_set k s m = m ++ [(k, s)].
Proof.
  induction m as [|[k' s'] m IH]; simpl; [done|].
  case_decide; [done|]. intros Hget. by rewrite IH.
Qed.

Lemma Map_get_snoc k k' s m :
  Map_get k (m ++ [(k', s)]) =
  match Map_get k m with
  | Some x => Some x
  | None => if decide (k = k') then Some s else None
  end.
Proof.
  induction m as [|[k1 s1] m IH]; simpl; [done|].
  by destruct (decide (k = k1)).
Qed.

(** With separate set objects a set belongs to one bucket only. *)
Lemma Map_get_separate k1 k2 s m :
  separate m → Map_get k1 m = Some s → Map_get k2 m = Some s → k1 = k2.
Proof.
  unfold separate, sets. induction m as [|[k' s'] m IH]; simpl; [done|].
  intros [Hs' Hnd]%NoDup_cons.
  destruct (decide (k1 = k')) as [->|Hk1], (decide (k2 = k')) as [->|Hk2];
    try done.
  - intros [= ->] Hin%Map_get_sets. done.
  - intros Hin%Map_get_sets [= ->]. done.
  - by apply IH.
Qed.

(** ** The heap *)

Lemma contents_insert (σ : heap) l x l' :
  contents (<[l := x]> σ) l' = if decide (l = l') then x else contents σ l'.
Proof.
  unfold contents. rewrite lookup_insert. by case_decide.
Qed.

(** ** Totals under a heap write *)

Lemma total_cards_cons (σ : heap) k s m :
  total_cards σ ((k, s) :: m) = (size (contents σ s) + total_cards σ m)%nat.
Proof. done. Qed.

Lemma total_cards_insert_notin (σ : heap) m s x :
  s ∉ sets m → total_cards (<[s := x]> σ) m = total_cards σ m.
Proof.
  unfold sets. induction m as [|[k' s'] m IH]; [done|].
  rewrite fmap_cons. intros [Hne Hnin]%not_elem_of_cons.
  rewrite !total_cards_cons, contents_insert, decide_False, IH; done.
Qed.

Lemma total_cards_insert_in (σ : heap) m s x :
  separate m → s ∈ sets m →
  (total_cards (<[s := x]> σ) m + size (contents σ s)
   = total_cards σ m + size x)%nat.
Proof.
  unfold separate, sets. induction m as [|[k' s'] m IH].
  - intros _ Hin. by apply elem_of_nil in Hin.
  - rewrite fmap_cons. intros [Hs' Hnd]%NoDup_cons Hin.
    rewrite !total_cards_cons, contents_insert.
    destruct (decide (s = s')) as [->|Hne].
    + rewrite total_cards_insert_notin by done. simpl. lia.
    + apply elem_of_cons in Hin as [?|Hin]; [done|].
      specialize (IH Hnd Hin). lia.
Qed.

Lemma total_cards_snoc (σ : heap) m k s :
  total_cards σ (m ++ [(k, s)]) = (total_cards σ m + size (contents σ s))%nat.
Proof.
  induction m as [|[k' s'] m IH].
  - simpl. rewrite total_cards_cons. unfold total_cards. simpl. lia.
  - simpl. rewrite !total_cards_cons, IH. lia.
Qed.

(** ** The two halves of [update] *)

(** The search either finds an entry whose set has the card, and deletes the
    card from that set, or leaves the heap and [currentBucket] as they were. *)
Lemma find_and_delete_spec (σ : heap) c m cb0 :
  (∃ k0 s0, (k0, s0) ∈ m ∧ c ∈ contents σ s0 ∧
     find_and_delete σ c m cb0 = (<[s0 := contents σ s0 ∖ {[c]}]> σ, k0))
  ∨ ((∀ k s, (k, s) ∈ m → c ∉ contents σ s) ∧
     find_and_delete σ c m cb0 = (σ, cb0)).
Proof.
  induction m as [|[k s] m IH]; simpl.
  - right. split; [|done]. intros k s Hin. by apply elem_of_nil in Hin.
  - unfold Set_has. case_bool_decide as Hc.
    + left. exists k, s. split_and!; [left | done | done].
    + destruct IH as [(k0 & s0 & Hin & Hc0 & Heq)|[Hnone Heq]].
      * left. exists k0, s0. split_and!; [by right | done | done].
      * right. split; [|done].
        intros k1 s1 [[= -> ->]|Hin]%elem_of_cons; [done | by eapply Hnone].
Qed.

Lemma update_placed (σ : heap) m c d σ1 cb :
  find_and_delete σ c m (-1) = (σ1, cb) →
  placed σ1 m (new_bucket d (if decide (cb = -1) then 0 else cb)) c
    (update σ m c d).
Proof.
  intros Hfind. unfold update, Map_copy. rewrite Hfind.
  set (nb := new_bucket d _). unfold Map_has.
  destruct (Map_get nb m) as [s|] eqn:Hget.
  - left. exists s. rewrite bool_decide_eq_true_2 by eauto.
    by rewrite Hget.
  - right. split; [done|].
    rewrite bool_decide_eq_false_2 by (by intros [? ?]).
    unfold Set_new. rewrite Map_set_new by done.
    rewrite Map_get_snoc, Hget, decide_True by done.
    unfold Set_add. rewrite contents_insert, decide_True by done.
    by rewrite insert_insert_eq, (left_id_L ∅ (∪)).
Qed.

Lemma placed_in_bucket (σ1 : heap) m nb c σ' m' :
  map_ok σ1 m → separate m → placed σ1 m nb c (σ', m') →
  ∀ k c', in_bucket σ' m' k c' ↔ in_bucket σ1 m k c' ∨ (c' = c ∧ k = nb).
Proof.
  intros [Hnd Halloc] Hsep [(s & Hget & [= -> ->])|[Hget [= -> ->]]] k c'.
  - unfold in_bucket. split.
    + intros (s' & Hk & Hc'). rewrite contents_insert in Hc'.
      destruct (decide (s = s')) as [<-|Hne]; [|eauto].
      apply elem_of_union in Hc' as [Hc'|Hc'%elem_of_singleton]; [eauto|].
      right. split; [done|]. by eapply Map_get_separate.
    + intros [(s' & Hk & Hc')|[-> ->]].
      * exists s'. split; [done|]. rewrite contents_insert.
        case_decide; [subst; set_solver | done].
      * exists s. split; [done|]. rewrite contents_insert, decide_True by done.
        set_solver.
  - set (s := fresh (dom σ1)).
    assert (Hfresh : ∀ k' s', Map_get k' m = Some s' → s ≠ s').
    { intros k' s' Hs'%Map_get_sets Heq.
      rewrite Forall_forall in Halloc. apply Halloc in Hs'.
      rewrite <- Heq in Hs'. by apply (is_fresh (dom σ1)). }
    unfold in_bucket. rewrite Map_get_snoc. split.
    + intros (s' & Hk & Hc'). rewrite contents_insert in Hc'.
      destruct (Map_get k m) as [s''|] eqn:Hk'.
      * injection Hk as ->. rewrite decide_False in Hc' by eauto. eauto.
      * destruct (decide (k = nb)) as [Hknb|Hknb]; [|done]. injection Hk as <-.
        rewrite decide_True in Hc' by done.
        apply elem_of_singleton in Hc'. by right.
    + intros [(s' & Hk & Hc')|[-> ->]].
      * exists s'. rewrite Hk. split; [done|].
        rewrite contents_insert, decide_False by eauto. done.
      * exists s. rewrite Hget, decide_True by done. split; [done|].
        rewrite contents_insert, decide_True by done. set_solver.
Qed.

Lemma placed_ok (σ1 : heap) m nb c σ' m' :
  map_ok σ1 m → separate m → placed σ1 m nb c (σ', m') →
  map_ok σ' m' ∧ separate m'.
Proof.
  intros [Hnd Halloc] Hsep [(s & Hget & [= -> ->])|[Hget [= -> ->]]].
  - split; [split|]; [done | | done].
    eapply Forall_impl; [done|]. intros s' Hs'. simpl in Hs'.
    rewrite dom_insert_L. set_solver.
  - set (s := fresh (dom σ1)).
    assert (Hs : s ∉ sets m).
    { intros Hs. rewrite Forall_forall in Halloc. apply Halloc in Hs.
      by apply (is_fresh (dom σ1)). }
    unfold map_ok, separate, keys, sets in *. rewrite !fmap_app. simpl.
    split_and!.
    + apply NoDup_app. split_and!; [done | | apply NoDup_singleton].
      intros k Hk ->%list_elem_of_singleton. by apply Map_get_None in Hget.
    + apply Forall_app. split.
      * eapply Forall_impl; [done|]. intros s' Hs'. simpl in Hs'.
        rewrite dom_insert_L. set_solver.
      * apply Forall_singleton. rewrite dom_insert_L. set_solver.
    + apply NoDup_app. split_and!; [done | | apply NoDup_singleton].
      intros s' Hs' ->%list_elem_of_singleton. done.
Qed.

Lemma placed_total (σ1 : heap) m nb c σ' m' :
  map_ok σ1 m → separate m → placed σ1 m nb c (σ', m') →
  ¬ in_bucket σ1 m nb c →
  total_cards σ' m' = S (total_cards σ1 m).
Proof.
  intros [Hnd Halloc] Hsep [(s & Hget & [= -> ->])|[Hget [= -> ->]]] Hnotin.
  - pose proof (total_cards_insert_in σ1 m s (contents σ1 s ∪ {[c]}) Hsep
                  (Map_get_sets _ _ _ Hget)) as Htot.
    assert (Hc : c ∉ contents σ1 s).
    { intros Hc. apply Hnotin. by exists s. }
    rewrite size_union, size_singleton in Htot by set_solver. lia.
  - set (s := fresh (dom σ1)).
    assert (Hs : s ∉ sets m).
    { intros Hs. rewrite Forall_forall in Halloc. apply Halloc in Hs.
      by apply (is_fresh (dom σ1)). }
    rewrite total_cards_snoc, total_cards_insert_notin by done.
    rewrite contents_insert, decide_True, size_singleton by done. lia.
Qed.

Lemma search_cases (σ : heap) m c σ1 cb :
  map_ok σ m → find_and_delete σ c m (-1) = (σ1, cb) →
  (∃ s0, Map_get cb m = Some s0 ∧ c ∈ contents σ s0 ∧
         σ1 = <[s0 := contents σ s0 ∖ {[c]}]> σ)
  ∨ ((∀ k, ¬ in_bucket σ m k c) ∧ σ1 = σ ∧ cb = -1).
Proof.
  intros [Hnd _] Hfind.
  destruct (find_and_delete_spec σ c m (-1))
    as [(k0 & s0 & Hin & Hc & Heq)|[Hnone Heq]];
    rewrite Heq in Hfind; injection Hfind as <- <-.
  - left. exists s0. split_and!; [by apply elem_Map_get | done | done].
  - right. split_and!; [|done|done].
    intros k (s & Hk%Map_get_Some_elem & Hc). by eapply Hnone.
Qed.

Lemma search_in_bucket (σ : heap) m c σ1 cb :
  map_ok σ m → exclusive σ m → find_and_delete σ c m (-1) = (σ1, cb) →
  ∀ k c', in_bucket σ1 m k c' ↔ c' ≠ c ∧ in_bucket σ m k c'.
Proof.
  intros Hok Hex Hfind k c'.
  destruct (search_cases _ _ _ _ _ Hok Hfind)
    as [(s0 & Hcb & Hc & ->)|(Hnone & -> & _)].
  - unfold in_bucket. split.
    + intros (s & Hk & Hc'). rewrite contents_insert in Hc'.
      destruct (decide (s0 = s)) as [->|Hne].
      * apply elem_of_difference in Hc' as [Hc' Hcc'].
        split; [set_solver | eauto].
      * split; [|eauto]. intros ->. apply Hne.
        assert (k = cb) as -> by (eapply Hex; [exists s | exists s0]; eauto).
        congruence.
    + intros (Hcc' & s & Hk & Hc'). exists s. split; [done|].
      rewrite contents_insert. case_decide; [subst; set_solver | done].
  - split; [|tauto]. intros Hin. split; [|done]. intros ->. by eapply Hnone.
Qed.

Lemma search_ok (σ : heap) m c σ1 cb :
  map_ok σ m → find_and_delete σ c m (-1) = (σ1, cb) → map_ok σ1 m.
Proof.
  intros Hok Hfind.
  destruct (search_cases _ _ _ _ _ Hok Hfind)
    as [(s0 & Hcb & Hc & ->)|(Hnone & -> & _)]; [|done].
  destruct Hok as [Hnd Halloc]. split; [done|].
  eapply Forall_impl; [done|]. intros s' Hs'. simpl in Hs'.
  rewrite dom_insert_L. set_solver.
Qed.

Lemma search_total_found (σ : heap) m c σ1 cb k :
  map_ok σ m → separate m → find_and_delete σ c m (-1) = (σ1, cb) →
  in_bucket σ m k c → total_cards σ m = S (total_cards σ1 m).
Proof.
  intros Hok Hsep Hfind Hin.
  destruct (search_cases _ _ _ _ _ Hok Hfind)
    as [(s0 & Hcb & Hc & ->)|(Hnone & -> & _)]; [|by destruct (Hnone k)].
  pose proof (total_cards_insert_in σ m s0 (contents σ s0 ∖ {[c]}) Hsep
                (Map_get_sets _ _ _ Hcb)) as Htot.
  assert (size (contents σ s0) = S (size (contents σ s0 ∖ {[c]}))) as Hsz.
  { rewrite (union_difference_L {[c]} (contents σ s0)) at 1 by set_solver.
    rewrite size_union, size_singleton by set_solver. done. }
  lia.
Qed.

Lemma search_total_absent (σ : heap) m c σ1 cb :
  map_ok σ m → find_and_delete σ c m (-1) = (σ1, cb) →
  (∀ k, ¬ in_bucket σ m k c) → σ1 = σ ∧ cb = -1.
Proof.
  intros Hok Hfind Hnone.
  destruct (search_cases _ _ _ _ _ Hok Hfind)
    as [(s0 & Hcb & Hc & ->)|(_ & -> & ->)]; [|done].
  destruct (Hnone cb). by exists s0.
Qed.

(** Under exclusivity the bucket found by the search is the bucket that
    holds the card. *)
Lemma search_current (σ : heap) m c σ1 cb k :
  map_ok σ m → exclusive σ m → find_and_delete σ c m (-1) = (σ1, cb) →
  in_bucket σ m k c → cb = k.
Proof.
  intros Hok Hex Hfind Hin.
  destruct (search_cases _ _ _ _ _ Hok Hfind)
    as [(s0 & Hcb & Hc & ->)|(Hnone & -> & _)]; [|by destruct (Hnone k)].
  eapply Hex; [exists s0|]; eauto.
Qed.

(** ** [update] as a whole *)

Lemma update_in_bucket (σ : heap) m c d σ' m' :
  map_ok σ m → separate m → exclusive σ m → update σ m c d = (σ', m') →
  ∀ k c', in_bucket σ' m' k c' ↔
          (c' = c ∧ k = target σ m c d) ∨ (c' ≠ c ∧ in_bucket σ m k c').
Proof.
  intros Hok Hsep Hex Hupd k c'. unfold target.
  destruct (find_and_delete σ c m (-1)) as [σ1 cb] eqn:Hfind. simpl.
  pose proof (update_placed σ m c d σ1 cb Hfind) as Hpl. rewrite Hupd in Hpl.
  rewrite (placed_in_bucket _ _ _ _ _ _ (search_ok _ _ _ _ _ Hok Hfind) Hsep Hpl).
  rewrite (search_in_bucket _ _ _ _ _ Hok Hex Hfind). tauto.
Qed.

Lemma update_ok (σ : heap) m c d σ' m' :
  map_ok σ m → separate m → update σ m c d = (σ', m') →
  map_ok σ' m' ∧ separate m'.
Proof.
  intros Hok Hsep Hupd.
  destruct (find_and_delete σ c m (-1)) as [σ1 cb] eqn:Hfind.
  pose proof (update_placed σ m c d σ1 cb Hfind) as Hpl. rewrite Hupd in Hpl.
  eapply placed_ok; [|done|done]. by eapply search_ok.
Qed.

Lemma update_exclusive (σ : heap) m c d σ' m' :
  map_ok σ m → separate m → exclusive σ m → update σ m c d = (σ', m') →
  exclusive σ' m'.
Proof.
  intros Hok Hsep Hex Hupd c' k1 k2.
  rewrite !(update_in_bucket _ _ _ _ _ _ Hok Hsep Hex Hupd).
  intros [[-> ->]|[Hne H1]] [[Heq ->]|[Hne' H2]]; try done.
  by eapply Hex.
Qed.

(** ** [toBucketSets] *)

Lemma max_key_ge k m : k ∈ keys m → k <= max_key m.
Proof.
  unfold max_key, keys. induction m as [|[k' s'] m IH]; simpl.
  - intros Hin. by apply elem_of_nil in Hin.
  - intros [->|Hin]%elem_of_cons; [apply Z.le_max_l|].
    etrans; [by apply IH | apply Z.le_max_r].
Qed.

Lemma max_key_cases m : (max_key m = -1) ∨ (max_key m ∈ keys m).
Proof.
  unfold max_key, keys. induction m as [|[k' s'] m IH]; csimpl; [by left|].
  destruct (Z.max_spec k' (foldr Z.max (-1) m.*1)) as [[_ ->]|[_ ->]].
  - destruct IH as [IH|IH]; [by left | right; by right].
  - right. left.
Qed.

(** The array made by [Array.from] is full of new, empty sets; the sets that
    existed before are untouched. *)
Lemma Array_from_new_sets_spec n : ∀ (σ σ' : heap) a,
  Array_from_new_sets n σ = (σ', a) →
  length a = n ∧
  (∀ l, l ∈ dom σ → (l ∈ dom σ') ∧ contents σ' l = contents σ l) ∧
  Forall (λ x, ∃ s, x = Some s ∧ (s ∉ dom σ) ∧ contents σ' s = ∅) a.
Proof.
  induction n as [|n IH]; intros σ σ' a; simpl.
  - intros [= <- <-]. split_and!; [done | done | constructor].
  - pose proof (is_fresh (dom σ)) as Hfresh.
    set (l := fresh (dom σ)) in *.
    destruct (Array_from_new_sets n (<[l := ∅]> σ)) as [σ2 a'] eqn:Hrec.
    intros [= <- <-].
    destruct (IH _ _ _ Hrec) as (Hlen & Hold & Hnew).
    assert (Hl : l ∈ dom (<[l := ∅]> σ)) by (rewrite dom_insert_L; set_solver).
    split_and!.
    + simpl. by rewrite Hlen.
    + intros l' Hl'.
      destruct (Hold l') as [Hd Hc]; [rewrite dom_insert_L; set_solver|].
      split; [done|]. rewrite Hc, contents_insert, decide_False; [done|].
      intros <-. done.
    + constructor.
      * exists l. split_and!; [done | done |].
        destruct (Hold l Hl) as [_ ->].
        by rewrite contents_insert, decide_True.
      * eapply Forall_impl; [done|]. intros x (s & -> & Hs & Hc). simpl.
        exists s. split_and!; [done | | done].
        intros Hin. apply Hs. rewrite dom_insert_L. set_solver.
Qed.

Lemma Array_set_in_range {A} k (x : A) a :
  0 <= k → (Z.to_nat k < length a)%nat →
  Array_set k x a = <[Z.to_nat k := Some x]> a.
Proof.
  intros Hk Hlt. unfold Array_set, Array_write.
  by rewrite !decide_True.
Qed.

(** Every key is written inside the array, so the loop never extends it; a
    slot ends up holding the set of its key, or what it held before. *)
Lemma fill_buckets_lookup m : ∀ a : jsarray loc,
  NoDup (keys m) →
  Forall (λ k, 0 <= k → (Z.to_nat k < length a)%nat) (keys m) →
  length (fill_buckets m a) = length a ∧
  ∀ i, fill_buckets m a !! i =
       match Map_get (Z.of_nat i) m with
       | Some s => if decide (i < length a)%nat then Some (Some s) else None
       | None => a !! i
       end.
Proof.
  unfold keys. induction m as [|[k s] m IH]; intros a; csimpl; [done|].
  intros [Hk Hnd]%NoDup_cons [Hrange Hrest]%Forall_cons.
  destruct (decide (0 <= k)) as [Hk0|Hk0].
  - specialize (Hrange Hk0).
    rewrite Array_set_in_range by done.
    destruct (IH (<[Z.to_nat k := Some s]> a)) as [Hlen Hlook]; [done | |].
    { by rewrite length_insert. }
    rewrite length_insert in Hlen. split; [done|].
    intros i. rewrite Hlook, length_insert.
    destruct (decide (Z.of_nat i = k)) as [<-|Hne].
    + rewrite Nat2Z.id in *.
      assert (Map_get (Z.of_nat i) m = None) as ->
        by (by apply Map_get_None).
      rewrite decide_True by done. by apply list_lookup_insert_eq.
    + destruct (Map_get (Z.of_nat i) m); [done|].
      apply list_lookup_insert_ne. lia.
  - unfold Array_set. rewrite decide_False by done.
    destruct (IH a) as [Hlen Hlook]; [done | done |].
    split; [done|]. intros i. rewrite Hlook.
    rewrite decide_False by lia. done.
Qed.

(** Every key is an array index when the largest one is. *)
Lemma max_key_index m : index_keys m ↔ max_key m + 1 <= MAX_ARRAY_LENGTH.
Proof.
  unfold index_keys. rewrite Forall_forall. split.
  - intros Hall. destruct (max_key_cases m) as [->|Hin]; [done|].
    apply Hall in Hin. lia.
  - intros Hmax k Hk%max_key_ge. lia.
Qed.

(** [toBucketSets] returns an array when every key is below 2^32 - 1, and
    throws otherwise, before it has allocated any set. *)
Lemma toBucketSets_cases (σ : heap) m :
  (index_keys m ∧
   ∃ σ' a0, Array_from_new_sets (Z.to_nat (max_key m + 1)) σ = (σ', a0) ∧
            toBucketSets σ m = (σ', Returns_array (fill_buckets m a0)))
  ∨ (¬ index_keys m ∧ toBucketSets σ m = (σ, Throws_RangeError)).
Proof.
  unfold toBucketSets, Array_from. rewrite max_key_index.
  case_decide as Hmax; [left | right; done].
  split; [done|].
  destruct (Array_from_new_sets _ σ) as [σ' a0]. eauto.
Qed.

Lemma toBucketSets_Returns (σ : heap) m σ' a :
  toBucketSets σ m = (σ', Returns_array a) →
  index_keys m ∧
  ∃ a0, Array_from_new_sets (Z.to_nat (max_key m + 1)) σ = (σ', a0) ∧
        a = fill_buckets m a0.
Proof.
  destruct (toBucketSets_cases σ m) as [(Hidx & σ1 & a0 & Hfrom & ->)|[_ ->]];
    [|done].
  intros [= <- <-]. eauto.
Qed.

(** The parts of [toBucketSets]'s result, for a map with distinct keys. *)
Lemma toBucketSets_spec (σ : heap) m σ' a :
  NoDup (keys m) → toBucketSets σ m = (σ', Returns_array a) →
  ∃ a0,
    Array_from_new_sets (Z.to_nat (max_key m + 1)) σ = (σ', a0) ∧
    length a0 = Z.to_nat (max_key m + 1) ∧
    length a = length a0 ∧
    ∀ i, a !! i =
         match Map_get (Z.of_nat i) m with
         | Some s => if decide (i < length a0)%nat then Some (Some s) else None
         | None => a0 !! i
         end.
Proof.
  intros Hnd (_ & a0 & Hfrom & ->)%toBucketSets_Returns. exists a0.
  destruct (Array_from_new_sets_spec _ _ _ _ Hfrom) as (Hlen & _ & _).
  destruct (fill_buckets_lookup m a0) as [Hlen' Hlook]; [done| |done].
  apply Forall_forall. intros k Hk%max_key_ge Hk0. lia.
Qed.

(** A key of the map indexes a slot of the array. *)
Lemma key_in_range k s m :
  Map_get k m = Some s → 0 <= k →
  (Z.to_nat k < Z.to_nat (max_key m + 1))%nat.
Proof.
  intros Hget%Map_get_Some_elem Hk0.
  assert (k ∈ keys m) as Hk%max_key_ge; [|lia].
  apply list_elem_of_fmap. by exists (k, s).
Qed.

(** ** [computeProgress] *)

Lemma progress_forEach_total (σ : heap) a : ∀ index acc,
  totalCards (progress_forEach σ a index acc)
  = (totalCards acc + array_total σ a)%nat.
Proof.
  induction a as [|[s|] a IH]; intros index acc; simpl.
  - lia.
  - rewrite IH. simpl. unfold Set_size. lia.
  - by rewrite IH.
Qed.

Lemma progress_entries_total (σ : heap) m : ∀ acc,
  totalCards (progress_entries σ m acc)
  = (totalCards acc + total_cards σ m)%nat.
Proof.
  induction m as [|[k s] m IH]; intros acc; simpl.
  - unfold total_cards. simpl. lia.
  - rewrite IH, total_cards_cons. simpl. unfold Set_size. lia.
Qed.

Lemma array_total_insert (σ : heap) a : ∀ i s0 s,
  a !! i = Some (Some s0) →
  (array_total σ (<[i := Some s]> a) + size (contents σ s0)
   = array_total σ a + size (contents σ s))%nat.
Proof.
  induction a as [|x a IH]; intros i s0 s; [done|].
  destruct i as [|i]; simpl.
  - intros [= ->]. lia.
  - intros Hi. specialize (IH i s0 s Hi). destruct x; lia.
Qed.

Lemma array_total_empty (σ : heap) a :
  Forall (λ x, ∃ s, x = Some s ∧ contents σ s = ∅) a → array_total σ a = 0%nat.
Proof.
  induction 1 as [|x a (s & -> & Hs) _ IH]; simpl; [done|].
  by rewrite Hs, size_empty, IH.
Qed.

Lemma total_cards_agree (σ σ' : heap) m :
  Forall (λ s, contents σ' s = contents σ s) (sets m) →
  total_cards σ' m = total_cards σ m.
Proof.
  unfold sets. induction m as [|[k s] m IH]; [done|].
  rewrite fmap_cons. intros [Hs Hrest]%Forall_cons. simpl in Hs.
  rewrite !total_cards_cons, Hs, IH; done.
Qed.

(** Filling slots that hold empty sets adds the sizes of the map's sets. *)
Lemma fill_buckets_total (σ : heap) m : ∀ a,
  NoDup (keys m) →
  Forall (λ e, 0 <= e.1 ∧
               ∃ s0, a !! Z.to_nat e.1 = Some (Some s0) ∧ contents σ s0 = ∅) m →
  array_total σ (fill_buckets m a) = (array_total σ a + total_cards σ m)%nat.
Proof.
  unfold keys. induction m as [|[k s] m IH]; intros a.
  - intros _ _. unfold total_cards. simpl. lia.
  - rewrite fmap_cons. intros [Hk Hnd]%NoDup_cons [Hks Hrest]%Forall_cons.
    destruct Hks as (Hk0 & s0 & Hlook & Hempty). simpl in *.
    rewrite Array_set_in_range by eauto using lookup_lt_Some.
    rewrite IH, total_cards_cons; [|done|].
    + pose proof (array_total_insert σ a _ _ s Hlook) as Hins.
      rewrite Hempty, size_empty in Hins. lia.
    + rewrite Forall_forall in Hrest |- *.
      intros [k' s'] Hin. destruct (Hrest _ Hin) as (Hk'0 & s1 & Hl1 & He1).
      simpl in *. split; [done|]. exists s1. split; [|done].
      rewrite list_lookup_insert_ne; [done|].
      intros Heq. apply Hk. apply list_elem_of_fmap. exists (k', s').
      split; [simpl; lia | done].
Qed.

(** ** [getHint] *)

Lemma trim_start_nil s :
  trim_start s = [] ↔ Forall (λ u, is_white_space u = true) s.
Proof.
  induction s as [|u s IH]; simpl.
  - split; [constructor | done].
  - destruct (is_white_space u) eqn:Hu.
    + rewrite IH. split; [by constructor | by intros [_ ?]%Forall_cons].
    + split; [done | intros [? _]%Forall_cons; congruence].
Qed.

Lemma trim_start_all_white s :
  Forall (λ u, is_white_space u = true) (trim_start s) →
  Forall (λ u, is_white_space u = true) s.
Proof.
  induction s as [|u s IH]; simpl; [done|].
  destruct (is_white_space u) eqn:Hu; [|done].
  intros H. constructor; [done | by apply IH].
Qed.

Lemma trim_nil s : trim s = [] ↔ Forall (λ u, is_white_space u = true) s.
Proof.
  unfold trim. split.
  - intros H. apply trim_start_all_white.
    apply (f_equal (@rev N)) in H. rewrite rev_involutive in H. simpl in H.
    apply trim_start_nil, Forall_rev in H. by rewrite rev_involutive in H.
  - intros H%trim_start_nil. rewrite H. done.
Qed.

Lemma has_text_not_white s :
  has_text s ↔ ¬ Forall (λ u, is_white_space u = true) s.
Proof.
  unfold has_text. induction s as [|u s IH].
  - split; [by intros ?%Exists_nil | intros []; constructor].
  - rewrite Exists_cons, Forall_cons, IH.
    destruct (is_white_space u); split; try tauto; try naive_solver.
Qed.

Lemma hint_is_usable_spec h :
  hint_is_usable h = true ↔ ∃ s, h = Some s ∧ has_text s.
Proof.
  destruct h as [[|u s]|]; simpl.
  - split; [done | intros (s & [= <-] & ?%Exists_nil); done].
  - rewrite negb_true_iff, bool_decide_eq_false, trim_nil, <- has_text_not_white.
    split; [eauto | by intros (? & [= <-] & ?)].
  - split; [done | by intros (? & ? & ?)].
Qed.

(** ** Checking the hypotheses on a concrete state *)

Lemma exclusive_entries_sound (σ : heap) m :
  exclusive_entries σ m → exclusive σ m.
Proof.
  unfold exclusive_entries. rewrite Forall_forall.
  intros Hall c k1 k2 (s1 & Hk1%Map_get_Some_elem & Hc1)
         (s2 & Hk2%Map_get_Some_elem & Hc2).
  specialize (Hall _ Hk1). rewrite Forall_forall in Hall.
  destruct (Hall _ Hk2) as [Heq|Hdisj]; [done|]. simpl in Hdisj.
  set_solver.
Qed.

(** Discharges [exclusive] on a concrete state. *)
Ltac solve_exclusive := apply exclusive_entries_sound; compute_done.

Lemma in_bucket_key (σ : heap) m k c : in_bucket σ m k c → k ∈ keys m.
Proof.
  intros (s & Hk%Map_get_Some_elem & _). apply list_elem_of_fmap.
  by exists (k, s).
Qed.

(** ** Numbers *)

Lemma round_double_exact z :
  Z.abs z <= 9007199254740992 → round_double z = z.
Proof. intros Hz. unfold round_double. by rewrite decide_True. Qed.

Lemma round_double_nonneg z : 0 <= z → 0 <= round_double z.
Proof.
  intros Hz. unfold round_double. case_decide as Hsmall; [done|].
  rewrite Z.sgn_pos, Z.mul_1_l by lia.
  assert (0 <= Z.abs z / 2 ^ (Z.log2 (Z.abs z) - 52)) as Hq
    by (apply Z_div_nonneg_nonneg; [lia | apply Z.pow_nonneg; lia]).
  apply Z.mul_nonneg_nonneg; [|apply Z.pow_nonneg; lia].
  repeat case_decide; try lia. destruct (Z.even _); lia.
Qed.

Lemma round_double_nonpos z : z <= 0 → round_double z <= 0.
Proof.
  intros Hz. unfold round_double. case_decide as Hsmall; [done|].
  rewrite Z.sgn_neg by lia.
  assert (0 <= Z.abs z / 2 ^ (Z.log2 (Z.abs z) - 52)) as Hq
    by (apply Z_div_nonneg_nonneg; [lia | apply Z.pow_nonneg; lia]).
  assert (0 <= 2 ^ (Z.log2 (Z.abs z) - 52)) as Hpow
    by (apply Z.pow_nonneg; lia).
  repeat case_decide; try nia. destruct (Z.even _); nia.
Qed.

(** Rounding does not take a number above 2^53 below it. *)
Lemma round_double_large z :
  9007199254740992 < z → 9007199254740992 <= round_double z.
Proof.
  intros Hz. unfold round_double. rewrite decide_False by lia.
  rewrite Z.abs_eq, Z.sgn_pos, Z.mul_1_l by lia.
  assert (53 <= Z.log2 z) as Hlog by (apply Z.log2_le_pow2; lia).
  set (e := Z.log2 z - 52). assert (1 <= e) as He by lia.
  assert (2 ^ 1 <= 2 ^ e) as Hpow by (apply Z.pow_le_mono_r; lia).
  assert (2 ^ 52 <= z / 2 ^ e) as Hq.
  { apply Z.div_le_lower_bound; [lia|].
    rewrite <- Z.pow_add_r by lia.
    replace (e + 52) with (Z.log2 z) by lia.
    apply Z.log2_spec. lia. }
  change (2 ^ 1) with 2 in Hpow. change (2 ^ 52) with 4503599627370496 in Hq.
  assert (z / 2 ^ e <=
          (if decide (z mod 2 ^ e < 2 ^ (e - 1)) then z / 2 ^ e
           else if decide (2 ^ (e - 1) < z mod 2 ^ e) then z / 2 ^ e + 1
           else if Z.even (z / 2 ^ e) then z / 2 ^ e else z / 2 ^ e + 1))
    as Hq' by (repeat case_decide; try lia; destruct (Z.even _); lia).
  nia.
Qed.

(** The code's arithmetic is exact up to 2^53; above it, only the capped
    sum of [Easy] is. *)
Lemma new_bucket_exact d cur :
  0 <= cur → (d = Hard → cur <= MAX_SAFE_INTEGER + 1) →
  new_bucket d cur = match d with
                     | Wrong => 0
                     | Hard => Z.max 0 (cur - 1)
                     | Easy => Z.min 4 (cur + 1)
                     end.
Proof.
  unfold MAX_SAFE_INTEGER. intros Hcur Hhard.
  destruct d; simpl; [done | |].
  - specialize (Hhard eq_refl). by rewrite round_double_exact by lia.
  - destruct (decide (cur + 1 <= 9007199254740992)).
    + by rewrite round_double_exact by lia.
    + pose proof (round_double_large (cur + 1)). lia.
Qed.

Lemma new_bucket_nonneg d cur : 0 <= cur → 0 <= new_bucket d cur.
Proof.
  intros Hcur. destruct d; simpl; [done | lia |].
  pose proof (round_double_nonneg (cur + 1)). lia.
Qed.

Lemma update_nonneg_keys (σ : heap) m c d :
  nonneg_keys m → nonneg_keys (update σ m c d).2.
Proof.
  intros Hnn.
  destruct (find_and_delete σ c m (-1)) as [σ1 cb] eqn:Hfind.
  assert (Hcb : cb = -1 ∨ cb ∈ keys m).
  { destruct (find_and_delete_spec σ c m (-1))
      as [(k0 & s0 & Hin & _ & Heq)|[_ Heq]];
      rewrite Heq in Hfind; injection Hfind as <- <-; [right | by left].
    apply list_elem_of_fmap. by exists (k0, s0). }
  pose proof (update_placed σ m c d σ1 cb Hfind) as [(s & _ & ->)|[_ ->]];
    [done|].
  unfold nonneg_keys, keys in *. simpl. rewrite fmap_app. apply Forall_app.
  split; [done|]. apply Forall_singleton.
  rewrite Forall_forall in Hnn.
  apply new_bucket_nonneg.
  destruct Hcb as [->|Hcb%Hnn]; [done | by case_decide].
Qed.

(** * The claims *)

(** ** C1 — [practice] *)

Lemma practice_result_empty (σ : heap) buckets day :
  contents (practice σ buckets day).1 (practice σ buckets day).2 = ∅.
Proof.
  unfold practice, Set_new. simpl. by rewrite contents_insert, decide_True.
Qed.

(** C1: the claim is that [practice] returns the union of the buckets due on
    the given day, bucket 0 being due every day.  On the array
    [[{card1}, {}, {}, {}]] and day 10 the policy selects [card1] (bucket 0
    is due), but the set [practice] returns does not have it: the function
    returns an empty set whatever it is given. *)
Theorem practice_misses_due_cards :
  card1 ∈ practice_spec heap_array array_four 10 ∧
  card1 ∉ contents (practice heap_array array_four 10).1
                   (practice heap_array array_four 10).2.
Proof.
  split.
  - vm_compute. set_solver.
  - rewrite practice_result_empty. set_solver.
Qed.

(** ** C2 — [update] and its input map *)

(** C2: the claim is that [update] leaves the input mapping unmodified.  For
    the map [{2 ↦ {card1}}] and the outcome [Wrong], [card1] is in bucket 2
    of the input before the call and no longer after it: the copy made by
    [new Map(buckets)] shares the [Set] objects of the input, and the card
    is deleted from the shared set. *)
Theorem update_mutates_input_sets :
  let σ' := (update heap_one map_one card1 Wrong).1 in
  in_bucket heap_one map_one 2 card1 ∧
  ¬ in_bucket σ' map_one 2 card1 ∧
  contents σ' 1%positive = ∅.
Proof.
  split_and!.
  - exists 1%positive. split; [done|]. vm_compute. set_solver.
  - intros (s & [= <-] & Hc). revert Hc. vm_compute. set_solver.
  - by vm_compute.
Qed.

(** ** C3 — where [update] puts the card *)

(** The bucket the code computes is the one the spec describes. *)
Lemma target_current (σ : heap) m c d cur :
  map_ok σ m → nonneg_keys m → exclusive σ m →
  in_bucket σ m cur c ∨ (cur = 0 ∧ ∀ k, ¬ in_bucket σ m k c) →
  target σ m c d = new_bucket d cur.
Proof.
  intros Hok Hnn Hex Hcur. unfold target.
  destruct (find_and_delete σ c m (-1)) as [σ1 cb] eqn:Hfind. simpl.
  destruct Hcur as [Hin|[-> Hnone]].
  - rewrite (search_current _ _ _ _ _ _ Hok Hex Hfind Hin).
    apply in_bucket_key in Hin. unfold nonneg_keys in Hnn.
    rewrite Forall_forall in Hnn. apply Hnn in Hin.
    rewrite decide_False by lia. done.
  - destruct (search_total_absent _ _ _ _ _ Hok Hfind Hnone) as [_ ->].
    by rewrite decide_True.
Qed.

(** C3 (amended): for a map with non-negative bucket numbers, no [Set]
    object shared between two buckets, and the exclusivity invariant, after
    [update] the card is in exactly the bucket [Wrong → 0],
    [Hard → max(0, current - 1)], [Easy → min(4, current + 1)], where
    [current] is the bucket holding the card in the input, or 0 when no
    bucket holds it, provided that [current] is at most 2^53 when the
    outcome is [Hard], so that [current - 1] is computed exactly.  That
    bucket is never negative, and it is at most 4 when the outcome is not
    [Hard] or [current] is at most 5. *)
Theorem update_destination (σ : heap) m c d cur :
  map_ok σ m → separate m → nonneg_keys m → exclusive σ m →
  in_bucket σ m cur c ∨ (cur = 0 ∧ ∀ k, ¬ in_bucket σ m k c) →
  (d = Hard → cur <= MAX_SAFE_INTEGER + 1) →
  let dest := match d with
              | Wrong => 0
              | Hard => Z.max 0 (cur - 1)
              | Easy => Z.min 4 (cur + 1)
              end in
  (∀ k, in_bucket (update σ m c d).1 (update σ m c d).2 k c ↔ k = dest) ∧
  0 <= dest ∧
  (d ≠ Hard ∨ cur <= 5 → dest <= 4).
Proof.
  intros Hok Hsep Hnn Hex Hcur Hsafe dest.
  assert (Hcur0 : 0 <= cur).
  { destruct Hcur as [Hin%in_bucket_key|[-> _]]; [|done].
    unfold nonneg_keys in Hnn. rewrite Forall_forall in Hnn. by apply Hnn. }
  split_and!.
  - intros k. destruct (update σ m c d) as [σ' m'] eqn:Hupd. simpl.
    rewrite (update_in_bucket _ _ _ _ _ _ Hok Hsep Hex Hupd).
    rewrite (target_current _ _ _ _ cur Hok Hnn Hex Hcur).
    rewrite new_bucket_exact by done. fold dest. tauto.
  - subst dest. destruct d; lia.
  - subst dest. intros [Hd|Hle]; destruct d; try done; lia.
Qed.

Lemma update_destination_witness :
  in_bucket (update heap_one map_one card1 Hard).1
            (update heap_one map_one card1 Hard).2 1 card1.
Proof.
  refine (proj2 (proj1 (update_destination heap_one map_one card1 Hard 2
                          _ _ _ _ _ _) 1) eq_refl).
  - split; compute_done.
  - compute_done.
  - compute_done.
  - solve_exclusive.
  - left. exists 1%positive. split; [done | compute_done].
  - done.
Defined.

(** The claim of C3 fails in three ways.  A card in bucket 7 answered
    [Hard] goes to bucket 6, outside [0, 4].  When the keys 0 and 1 hold the
    same [Set] object, a card that is in no bucket and is answered [Wrong]
    ends up in bucket 1 as well as in its destination, bucket 0.  And a card
    in bucket 2^53 + 2 answered [Hard] goes to bucket 2^53, not to
    2^53 + 1, which is no double: the difference is rounded. *)
Lemma destination_out_of_range_or_not_unique :
  (map_ok heap_one map_high ∧ exclusive heap_one map_high ∧
   in_bucket heap_one map_high 7 card1 ∧
   in_bucket (update heap_one map_high card1 Hard).1
             (update heap_one map_high card1 Hard).2 (Z.max 0 (7 - 1)) card1 ∧
   ¬ (0 <= Z.max 0 (7 - 1) <= 4))
  ∧
  (map_ok heap_shared map_shared ∧ exclusive heap_shared map_shared ∧
   (∀ k, ¬ in_bucket heap_shared map_shared k card1) ∧
   in_bucket (update heap_shared map_shared card1 Wrong).1
             (update heap_shared map_shared card1 Wrong).2 1 card1 ∧
   1 ≠ 0)
  ∧
  (map_ok heap_one map_unsafe ∧ exclusive heap_one map_unsafe ∧
   in_bucket heap_one map_unsafe 9007199254740994 card1 ∧
   in_bucket (update heap_one map_unsafe card1 Hard).1
             (update heap_one map_unsafe card1 Hard).2
             9007199254740992 card1 ∧
   9007199254740992 ≠ Z.max 0 (9007199254740994 - 1)).
Proof.
  split_and!.
  - split; compute_done.
  - solve_exclusive.
  - exists 1%positive. split; [done | compute_done].
  - exists 2%positive. split; [done | compute_done].
  - lia.
  - split; compute_done.
  - solve_exclusive.
  - intros k (s & Hs%Map_get_sets & Hc). revert Hc.
    apply list_elem_of_In in Hs. simpl in Hs.
    destruct Hs as [<-|[<-|[]]]; vm_compute; set_solver.
  - exists 1%positive. split; [done | compute_done].
  - done.
  - split; compute_done.
  - solve_exclusive.
  - exists 1%positive. split; [done | compute_done].
  - exists 2%positive. split; [by vm_compute | compute_done].
  - lia.
Qed.

(** ** C4 — the number of cards *)

(** C4 (amended): for a map with no [Set] object shared between two buckets
    and the exclusivity invariant, [update] leaves the total number of cards
    unchanged when the card is in some bucket of the input, and makes it one
    more when the card is in no bucket (the card then enters the map). *)
Theorem update_total_cards (σ : heap) m c d :
  map_ok σ m → separate m → exclusive σ m →
  let r := update σ m c d in
  ((∃ k, in_bucket σ m k c) → total_cards r.1 r.2 = total_cards σ m) ∧
  ((∀ k, ¬ in_bucket σ m k c) → total_cards r.1 r.2 = S (total_cards σ m)).
Proof.
  intros Hok Hsep Hex r. subst r.
  destruct (find_and_delete σ c m (-1)) as [σ1 cb] eqn:Hfind.
  pose proof (update_placed σ m c d σ1 cb Hfind) as Hpl.
  destruct (update σ m c d) as [σ' m']. simpl.
  pose proof (search_ok _ _ _ _ _ Hok Hfind) as Hok1.
  assert (Hgone : ∀ k, ¬ in_bucket σ1 m k c).
  { intros k [Hne _]%(search_in_bucket _ _ _ _ _ Hok Hex Hfind). done. }
  rewrite (placed_total _ _ _ _ _ _ Hok1 Hsep Hpl (Hgone _)).
  split.
  - intros [k Hin].
    by rewrite (search_total_found _ _ _ _ _ _ Hok Hsep Hfind Hin).
  - intros Hnone.
    by destruct (search_total_absent _ _ _ _ _ Hok Hfind Hnone) as [-> _].
Qed.

Lemma update_total_cards_witness :
  total_cards (update heap_three map_three card2 Easy).1
              (update heap_three map_three card2 Easy).2
  = total_cards heap_three map_three.
Proof.
  refine (proj1 (update_total_cards heap_three map_three card2 Easy _ _ _) _).
  - split; compute_done.
  - compute_done.
  - solve_exclusive.
  - exists 3. exists 2%positive. split; [done | compute_done].
Defined.

(** The claim of C4 fails in two ways.  For a card that is in no bucket the
    total grows: the empty map has no card, the map returned for it has one.
    And when the keys 0 and 1 hold the same [Set] object, moving the card of
    bucket 2 down with [Hard] puts it in both, so one card becomes two. *)
Lemma total_cards_not_conserved :
  (exclusive ∅ [] ∧
   total_cards ∅ [] = 0%nat ∧
   total_cards (update ∅ [] card1 Wrong).1 (update ∅ [] card1 Wrong).2 = 1%nat)
  ∧
  (map_ok heap_shared_tracked map_shared_tracked ∧
   exclusive heap_shared_tracked map_shared_tracked ∧
   in_bucket heap_shared_tracked map_shared_tracked 2 card1 ∧
   total_cards heap_shared_tracked map_shared_tracked = 1%nat ∧
   total_cards (update heap_shared_tracked map_shared_tracked card1 Hard).1
               (update heap_shared_tracked map_shared_tracked card1 Hard).2
   = 2%nat).
Proof.
  split; split_and!.
  - solve_exclusive.
  - done.
  - by vm_compute.
  - split; compute_done.
  - solve_exclusive.
  - exists 2%positive. split; [done | compute_done].
  - by vm_compute.
  - by vm_compute.
Qed.

(** ** C5 — exclusivity *)

Lemma updates_invariant (σ : heap) m trials :
  map_ok σ m → separate m → exclusive σ m →
  map_ok (updates σ m trials).1 (updates σ m trials).2 ∧
  separate (updates σ m trials).2 ∧
  exclusive (updates σ m trials).1 (updates σ m trials).2.
Proof.
  revert σ m. induction trials as [|[c d] trials IH]; intros σ m Hok Hsep Hex.
  - done.
  - simpl. destruct (update σ m c d) as [σ' m'] eqn:Hupd.
    destruct (update_ok _ _ _ _ _ _ Hok Hsep Hupd) as [Hok' Hsep'].
    apply IH; [done | done |].
    exact (update_exclusive _ _ _ _ _ _ Hok Hsep Hex Hupd).
Qed.

Lemma updates_nonneg_keys (σ : heap) m trials :
  nonneg_keys m → nonneg_keys (updates σ m trials).2.
Proof.
  revert σ m. induction trials as [|[c d] trials IH]; intros σ m Hnn; [done|].
  simpl. pose proof (update_nonneg_keys σ m c d Hnn) as Hnn'.
  destruct (update σ m c d) as [σ' m']. by apply IH.
Qed.

(** Every map that [update] builds from the empty map meets the hypotheses
    used for [update] here: no [Set] object shared between two buckets,
    non-negative bucket numbers, and exclusivity. *)
Lemma updates_from_empty trials :
  map_ok (updates ∅ [] trials).1 (updates ∅ [] trials).2 ∧
  separate (updates ∅ [] trials).2 ∧
  nonneg_keys (updates ∅ [] trials).2 ∧
  exclusive (updates ∅ [] trials).1 (updates ∅ [] trials).2.
Proof.
  destruct (updates_invariant ∅ [] trials) as (Hok & Hsep & Hex).
  - split; constructor.
  - constructor.
  - intros c k1 k2 (s & [=] & _).
  - split_and!; [done | done | | done].
    apply updates_nonneg_keys. constructor.
Qed.

(** C5: the claim is that [update] preserves the exclusivity invariant.  For
    a [Map] whose keys 0 and 1 hold the same empty [Set] object, no card is
    in any bucket, so the invariant holds; after one [update] of [card1]
    with [Wrong] the invariant is broken, [card1] being in bucket 0 and in
    bucket 1.  The returned map has the entries of the input, and the card
    was added in place to the [Set] object of the input, which both keys
    hold: the destination bucket did not get a set of its own. *)
Theorem shared_set_is_two_buckets :
  let σ' := (update heap_shared map_shared card1 Wrong).1 in
  let m' := (update heap_shared map_shared card1 Wrong).2 in
  map_ok heap_shared map_shared ∧ exclusive heap_shared map_shared ∧
  ¬ separate map_shared ∧
  ¬ exclusive σ' m' ∧
  in_bucket σ' m' 0 card1 ∧ in_bucket σ' m' 1 card1 ∧
  m' = map_shared ∧
  contents heap_shared 1%positive = ∅ ∧
  contents σ' 1%positive = {[card1]}.
Proof.
  assert (∀ k, k = 0 ∨ k = 1 →
               in_bucket (update heap_shared map_shared card1 Wrong).1
                         (update heap_shared map_shared card1 Wrong).2
                         k card1) as Hin.
  { intros k [->| ->]; exists 1%positive; (split; [done | compute_done]). }
  split_and!.
  - split; compute_done.
  - solve_exclusive.
  - compute_done.
  - intros Hex.
    assert (0 = 1) as Heq; [|done].
    apply (Hex card1); apply Hin; auto.
  - apply Hin; auto.
  - apply Hin; auto.
  - done.
  - compute_done.
  - compute_done.
Qed.

(** X22: away from shared [Set] objects exclusivity is preserved: for a map
    in which each card is in at most one bucket and no [Set] object is the
    value of two keys, after any finite sequence of [update] calls each card
    is still in at most one bucket. *)
Theorem updates_exclusive (σ : heap) m trials :
  map_ok σ m → separate m → exclusive σ m →
  exclusive (updates σ m trials).1 (updates σ m trials).2.
Proof.
  intros Hok Hsep Hex. by apply updates_invariant.
Qed.

Lemma updates_exclusive_witness :
  exclusive
    (updates heap_three map_three
       [(card1, Easy); (card2, Wrong); (card3, Hard); (card1, Easy)]).1
    (updates heap_three map_three
       [(card1, Easy); (card2, Wrong); (card3, Hard); (card1, Easy)]).2.
Proof.
  apply updates_exclusive.
  - split; compute_done.
  - compute_done.
  - solve_exclusive.
Defined.

(** ** C6 — the array form has the memberships of the map *)

(** C6 (amended): for every map (distinct keys, each with a live [Set]
    object, bucket numbers non-negative) whose bucket numbers are below
    2^32 - 1, [toBucketSets] returns an array, and a card is in bucket [k] of
    the map if and only if it is in the set at index [k] of that array. *)
Theorem toBucketSets_membership (σ : heap) m :
  map_ok σ m → nonneg_keys m → index_keys m →
  ∃ a, (toBucketSets σ m).2 = Returns_array a ∧
       ∀ k c, in_bucket σ m k c ↔ in_slot (toBucketSets σ m).1 a k c.
Proof.
  intros [Hnd Halloc] Hnn Hidx.
  destruct (toBucketSets_cases σ m) as [(_ & σ' & a0' & _ & Hto)|[? _]];
    [|done].
  rewrite Hto. simpl. eexists. split; [done|]. intros k c.
  destruct (toBucketSets_spec _ _ _ _ Hnd Hto)
    as (a0 & Hfrom & Hlen0 & Hlen & Hlook).
  destruct (Array_from_new_sets_spec _ _ _ _ Hfrom) as (_ & Hold & Hnew).
  rewrite Forall_forall in Halloc. unfold nonneg_keys in Hnn.
  rewrite Forall_forall in Hnn. unfold in_bucket, in_slot, Array_get.
  split.
  - intros (s & Hk & Hc).
    assert (0 <= k) as Hk0 by (apply Hnn; eapply in_bucket_key; by exists s).
    split; [done|]. exists s.
    rewrite Hlook, Z2Nat.id, Hk by done.
    rewrite decide_True by (rewrite Hlen0; by eapply key_in_range).
    split; [done|].
    destruct (Hold s) as [_ ->]; [|done]. apply Halloc. by eapply Map_get_sets.
  - intros (Hk0 & s & Hs & Hc). revert Hs.
    rewrite Hlook, Z2Nat.id by done.
    destruct (Map_get k m) as [s'|] eqn:Hk.
    + case_decide; [|done]. simpl. intros [= <-]. exists s'. split; [done|].
      destruct (Hold s') as [_ <-]; [|done]. apply Halloc. by eapply Map_get_sets.
    + destruct (a0 !! Z.to_nat k) as [x|] eqn:Hx; [|done].
      rewrite Forall_forall in Hnew.
      destruct (Hnew x) as (s0 & -> & _ & Hempty);
        [by eapply list_elem_of_lookup_2|].
      simpl. intros [= <-]. rewrite Hempty in Hc. set_solver.
Qed.

Lemma toBucketSets_membership_witness :
  ∃ a, (toBucketSets heap_three map_three).2 = Returns_array a ∧
       in_slot (toBucketSets heap_three map_three).1 a 3 card2.
Proof.
  destruct (toBucketSets_membership heap_three map_three) as (a & Ha & Hmem).
  - split; compute_done.
  - compute_done.
  - compute_done.
  - exists a. split; [done|]. apply Hmem.
    exists 2%positive. split; [done | compute_done].
Defined.

(** The claim of C6 for a map with a card in bucket 2^32 - 1: the array
    form would need 2^32 slots, [Array.from] throws a [RangeError], and
    there is no array for the card to be in. *)
Lemma huge_bucket_has_no_array_form :
  map_ok heap_one map_huge ∧ nonneg_keys map_huge ∧
  in_bucket heap_one map_huge 4294967295 card1 ∧
  toBucketSets heap_one map_huge = (heap_one, Throws_RangeError).
Proof.
  split_and!.
  - split; compute_done.
  - compute_done.
  - exists 1%positive. split; [done | compute_done].
  - done.
Qed.

(** ** C7 — the length of the array form *)

Lemma fill_buckets_length m : ∀ a : jsarray loc,
  Forall (λ k, 0 <= k → (Z.to_nat k < length a)%nat) (keys m) →
  length (fill_buckets m a) = length a.
Proof.
  unfold keys. induction m as [|[k s] m IH]; intros a; csimpl; [done|].
  intros [Hrange Hrest]%Forall_cons.
  destruct (decide (0 <= k)) as [Hk0|Hk0].
  - rewrite Array_set_in_range by auto.
    rewrite IH by (by rewrite length_insert). by rewrite length_insert.
  - unfold Array_set. rewrite decide_False by done. by apply IH.
Qed.

Lemma toBucketSets_length (σ : heap) m σ' a :
  toBucketSets σ m = (σ', Returns_array a) →
  length a = Z.to_nat (max_key m + 1).
Proof.
  intros (_ & a0 & Hfrom & ->)%toBucketSets_Returns.
  destruct (Array_from_new_sets_spec _ _ _ _ Hfrom) as (Hlen & _ & _).
  rewrite fill_buckets_length; [done|].
  apply Forall_forall. intros k Hk%max_key_ge Hk0. lia.
Qed.

(** C7 (amended): for a map whose bucket numbers are non-negative and below
    2^32 - 1, [toBucketSets] returns an array; it is empty when the map has
    no key, and otherwise its length is exactly 1 plus the largest key of the
    map, whether or not the set of that key holds a card. *)
Theorem toBucketSets_array_length (σ : heap) m :
  nonneg_keys m → index_keys m →
  ∃ a, (toBucketSets σ m).2 = Returns_array a ∧
       (m = [] → a = []) ∧
       (m ≠ [] → ∃ k, k ∈ keys m ∧ (∀ k', k' ∈ keys m → k' <= k) ∧
                      length a = S (Z.to_nat k)).
Proof.
  intros Hnn Hidx.
  destruct (toBucketSets_cases σ m) as [(_ & σ' & a0 & _ & Hto)|[? _]];
    [|done].
  pose proof (toBucketSets_length _ _ _ _ Hto) as Hlen.
  rewrite Hto. simpl. eexists. split; [done|]. split.
  - intros ->. by destruct (fill_buckets [] a0).
  - intros Hne. exists (max_key m).
    unfold nonneg_keys in Hnn. rewrite Forall_forall in Hnn.
    assert (Hmax : max_key m ∈ keys m).
    { destruct (max_key_cases m) as [Heq|Hin]; [|done].
      destruct m as [|[k s] m]; [done|].
      assert (Hk : k ∈ keys ((k, s) :: m)) by left.
      pose proof (max_key_ge _ _ Hk). pose proof (Hnn _ Hk). lia. }
    split_and!; [done | intros k' Hk'; by apply max_key_ge |].
    rewrite Hlen. pose proof (Hnn _ Hmax). lia.
Qed.

Lemma toBucketSets_array_length_witness :
  ∃ a, (toBucketSets heap_three map_three).2 = Returns_array a ∧
       ∃ k, k ∈ keys map_three ∧ (∀ k', k' ∈ keys map_three → k' <= k) ∧
            length a = S (Z.to_nat k).
Proof.
  destruct (toBucketSets_array_length heap_three map_three)
    as (a & Ha & _ & Hlen).
  - compute_done.
  - compute_done.
  - exists a. split; [done|]. by apply Hlen.
Defined.

(** The claim of C7 bounds the length by the largest bucket that holds a
    card.  In [{0 ↦ {card1}, 2 ↦ {}}] only bucket 0 holds a card and the array
    has length 3, with an empty set at index 2; in [{2 ↦ {}}] no bucket holds
    a card and the array is not empty.  And for a largest key of 2^32 - 1
    there is no array at all: [Array.from] throws a [RangeError]. *)
Lemma trailing_empty_buckets_are_materialized :
  (∀ k c, in_bucket heap_trailing map_trailing k c → k = 0) ∧
  (∃ a, (toBucketSets heap_trailing map_trailing).2 = Returns_array a ∧
        length a = 3%nat) ∧
  (∀ k c, ¬ in_bucket heap_trailing map_only_empty k c) ∧
  (toBucketSets heap_trailing map_only_empty).2 ≠ Returns_array [] ∧
  (toBucketSets heap_one map_huge).2 = Throws_RangeError.
Proof.
  split_and!.
  - intros k c (s & Hk & Hc). revert Hk Hc. unfold map_trailing. simpl.
    case_decide; [done|]. case_decide; [|done].
    intros [= <-]. vm_compute. set_solver.
  - eexists. split; [by vm_compute | done].
  - intros k c (s & Hk & Hc). revert Hk Hc. unfold map_only_empty. simpl.
    case_decide; [|done]. intros [= <-]. vm_compute. set_solver.
  - by vm_compute.
  - done.
Qed.

(** ** C8 — [getHint] *)

(** C8 (amended): [getHint] returns, first match winning: the hint text
    verbatim when the card has a hint with a code unit that is not white
    space; otherwise, when the card has tags, the tags in their order joined
    by a comma and a space, after a fixed prefix; otherwise the first five
    code units of the front text after a fixed prefix, followed by three
    dots. *)
Theorem getHint_priority (card : Flashcard) :
  (∀ h, hint card = Some h → has_text h → getHint card = h) ∧
  ((∀ h, hint card = Some h → ¬ has_text h) → tags card ≠ [] →
   getHint card
   = lit "Try to remember a card related to: " ++ join (lit ", ") (tags card)) ∧
  ((∀ h, hint card = Some h → ¬ has_text h) → tags card = [] →
   getHint card
   = lit "First few characters: " ++ take 5 (front card) ++ lit "...").
Proof.
  unfold getHint. split_and!.
  - intros h Hh Htext.
    assert (hint_is_usable (hint card) = true) as ->
      by (apply hint_is_usable_spec; eauto).
    by rewrite Hh.
  - intros Hno Htags.
    assert (hint_is_usable (hint card) = false) as ->.
    { apply not_true_is_false. intros (h & Hh & Htext)%hint_is_usable_spec.
      by eapply Hno. }
    rewrite decide_True; [done|]. destruct (tags card); [done | simpl; lia].
  - intros Hno Htags.
    assert (hint_is_usable (hint card) = false) as ->.
    { apply not_true_is_false. intros (h & Hh & Htext)%hint_is_usable_spec.
      by eapply Hno. }
    rewrite Htags, decide_False; [done | simpl; lia].
Qed.

Lemma getHint_priority_witness :
  getHint card_tagged
  = lit "Try to remember a card related to: history, science".
Proof.
  refine (proj1 (proj2 (getHint_priority card_tagged)) _ _).
  - intros h [= <-] Htext. by apply Exists_nil in Htext.
  - done.
Defined.

(** The claim of C8 for a hint that is not empty but blank: the hint [" "]
    is not returned, the tags are. *)
Lemma getHint_blank_hint :
  hint card_blank_hint = Some (lit " ") ∧ lit " " ≠ [] ∧
  getHint card_blank_hint ≠ lit " " ∧
  getHint card_blank_hint = lit "Try to remember a card related to: x".
Proof. split_and!; done. Qed.

(** ** C9 — [computeProgress] on the two forms *)

(** C9 (amended): for every map (distinct non-negative keys, each with a
    live [Set] object) whose bucket numbers are below 2^32 - 1,
    [toBucketSets] returns an array, and [computeProgress] returns the same
    [totalCards] on that array and on the map itself: the sum of the sizes
    of the sets of the map. *)
Theorem computeProgress_totalCards_agree (σ : heap) m history :
  map_ok σ m → nonneg_keys m → index_keys m →
  ∃ a p_array p_map,
    (toBucketSets σ m).2 = Returns_array a ∧
    computeProgress (toBucketSets σ m).1 (JArray a) history = Returns p_array ∧
    computeProgress σ (JMap m) history = Returns p_map ∧
    totalCards p_array = total_cards σ m ∧
    totalCards p_map = total_cards σ m.
Proof.
  intros [Hnd Halloc] Hnn Hidx.
  destruct (toBucketSets_cases σ m) as [(_ & σ' & a0 & Hfrom & Hto)|[? _]];
    [|done].
  rewrite Hto. simpl. do 3 eexists. split_and!; [done | done | done | |].
  - rewrite progress_forEach_total. simpl.
    destruct (Array_from_new_sets_spec _ _ _ _ Hfrom) as (Hlen & Hold & Hnew).
    assert (Hsame : total_cards σ' m = total_cards σ m).
    { apply total_cards_agree. eapply Forall_impl; [done|].
      intros s Hs. simpl in Hs. by destruct (Hold s Hs). }
    rewrite fill_buckets_total, array_total_empty, Hsame; [done | | done |].
    + eapply Forall_impl; [done|]. intros x (s & -> & _ & Hs). eauto.
    + apply Forall_forall. intros [k s] Hin.
      assert (Hk : k ∈ keys m) by (apply list_elem_of_fmap; by exists (k, s)).
      unfold nonneg_keys in Hnn. rewrite Forall_forall in Hnn.
      pose proof (Hnn _ Hk) as Hk0. pose proof (max_key_ge _ _ Hk) as Hmax.
      simpl. split; [done|].
      destruct (lookup_lt_is_Some_2 a0 (Z.to_nat k)) as [x Hx]; [lia|].
      rewrite Forall_forall in Hnew.
      destruct (Hnew x) as (s0 & -> & _ & Hempty);
        [by eapply list_elem_of_lookup_2|].
      eauto.
  - by rewrite progress_entries_total.
Qed.

Lemma computeProgress_totalCards_agree_witness :
  ∃ a p_array p_map,
    (toBucketSets heap_three map_three).2 = Returns_array a ∧
    computeProgress (toBucketSets heap_three map_three).1 (JArray a) JNull
    = Returns p_array ∧
    computeProgress heap_three (JMap map_three) JNull = Returns p_map ∧
    totalCards p_array = 3%nat ∧ totalCards p_map = 3%nat.
Proof.
  destruct (computeProgress_totalCards_agree heap_three map_three JNull)
    as (a & pa & pm & Ha & Hpa & Hpm & Hta & Htm).
  - split; compute_done.
  - compute_done.
  - compute_done.
  - exists a, pa, pm. rewrite Hta, Htm. split_and!; done.
Defined.

(** The claim of C9 for a map with a card in bucket 2^32 - 1:
    [computeProgress] counts one card in the map, and there is no array form
    to count in, because [toBucketSets] throws a [RangeError]. *)
Lemma huge_bucket_has_no_array_total :
  map_ok heap_one map_huge ∧ nonneg_keys map_huge ∧
  (∃ p, computeProgress heap_one (JMap map_huge) JNull = Returns p ∧
        totalCards p = 1%nat) ∧
  toBucketSets heap_one map_huge = (heap_one, Throws_RangeError).
Proof.
  split_and!.
  - split; compute_done.
  - compute_done.
  - eexists. split; [reflexivity|]. by rewrite progress_entries_total.
  - done.
Qed.

(** ** C10 — [computeProgress] on other values *)

(** C10 (amended): when [Array.isArray(buckets)] and
    [buckets instanceof Map] both evaluate to [false] (every primitive
    value, and every object that is not a [Proxy], not an array, and has not
    [Map.prototype] on its prototype chain), [computeProgress] does not
    throw and returns [totalCards] 0 and an empty [bucketDistribution],
    whatever [history] is. *)
Theorem computeProgress_other (σ : heap) buckets history :
  isArray buckets = Returns false → instanceofMap buckets = Returns false →
  computeProgress σ buckets history
  = Returns {| totalCards := 0; bucketDistribution := [] |}.
Proof.
  intros Harray Hmap. unfold computeProgress. rewrite Harray. simpl.
  by rewrite Hmap.
Qed.

Lemma computeProgress_other_witness :
  computeProgress ∅ JNull JNumber
  = Returns {| totalCards := 0; bucketDistribution := [] |} ∧
  computeProgress ∅ (JObject false) JNull
  = Returns {| totalCards := 0; bucketDistribution := [] |}.
Proof. split; by apply computeProgress_other. Defined.

(** The claim of C10 for two values that are neither an array nor a [Map].
    [Object.create(Map.prototype)] passes the [instanceof Map] test, and
    [buckets.entries()] throws a [TypeError] on it; on a revoked [Proxy]
    [Array.isArray] itself throws a [TypeError]. *)
Lemma computeProgress_throws_on_other_objects :
  (is_array (JObject true) = false ∧ is_map (JObject true) = false ∧
   computeProgress ∅ (JObject true) JNull = Throws_TypeError)
  ∧
  (is_array JRevokedProxy = false ∧ is_map JRevokedProxy = false ∧
   computeProgress ∅ JRevokedProxy JNull = Throws_TypeError).
Proof. split_and!; done. Qed.

(** * Further properties of the code *)

(** ** [getBucketRange] *)

Lemma Set_size_pos (σ : heap) s :
  (0 < Set_size σ s)%nat ↔ contents σ s ≠ ∅.
Proof.
  unfold Set_size. split.
  - intros Hsz Hs. rewrite Hs, size_empty in Hsz. lia.
  - intros Hs. destruct (decide (size (contents σ s) = 0%nat)) as [Hz|Hz]; [|lia].
    destruct Hs. by apply leibniz_equiv, size_empty_inv.
Qed.

(** What the search for the first non-empty set finds: nothing, in an array
    made of empty sets only; or the first set that has a card, every slot
    before it being an empty set; or a hole, reached through empty sets. *)
Lemma findIndex_nonempty_spec (σ : heap) a : ∀ index,
  match findIndex_nonempty σ a index with
  | Returns z =>
      (z = -1 ∧ Forall (λ x, ∃ s, x = Some s ∧ contents σ s = ∅) a)
      ∨ (∃ j s, z = Z.of_nat (index + j) ∧ a !! j = Some (Some s) ∧
                contents σ s ≠ ∅ ∧
                ∀ j', (j' < j)%nat →
                      ∃ s', a !! j' = Some (Some s') ∧ contents σ s' = ∅)
  | Throws_TypeError =>
      ∃ j, a !! j = Some None ∧
           ∀ j', (j' < j)%nat →
                 ∃ s', a !! j' = Some (Some s') ∧ contents σ s' = ∅
  end.
Proof.
  induction a as [|[s|] a IH]; intros index; simpl.
  - left. split; [done | constructor].
  - case_decide as Hsz.
    + right. exists 0%nat, s. split_and!; [f_equal; lia | done | | lia].
      by apply Set_size_pos.
    + assert (Hs : contents σ s = ∅).
      { destruct (decide (contents σ s = ∅)) as [|Hne]; [done|].
        by apply Set_size_pos in Hne. }
      specialize (IH (S index)).
      destruct (findIndex_nonempty σ a (S index)) as [z|].
      * destruct IH as [[-> Hall]|(j & s' & -> & Hj & Hne & Hbefore)].
        -- left. split; [done|]. constructor; eauto.
        -- right. exists (S j), s'. split_and!; [f_equal; lia | done | done |].
           intros [|j'] Hlt; simpl; [eauto|]. apply Hbefore. lia.
      * destruct IH as (j & Hj & Hbefore). exists (S j). split; [done|].
        intros [|j'] Hlt; simpl; [eauto|]. apply Hbefore. lia.
  - exists 0%nat. split; [done|]. lia.
Qed.

(** What the fold from the right finds: nothing, when no set of the array has
    a card; or the last set that has one. *)
Lemma reduceRight_nonempty_spec (σ : heap) a : ∀ index,
  let z := reduceRight_nonempty σ a index (-1) in
  (z = -1 ∧ ∀ j s, a !! j = Some (Some s) → contents σ s = ∅)
  ∨ (∃ j s, z = Z.of_nat (index + j) ∧ a !! j = Some (Some s) ∧
            contents σ s ≠ ∅ ∧
            ∀ j' s', (j < j')%nat → a !! j' = Some (Some s') →
                     contents σ s' = ∅).
Proof.
  induction a as [|x a IH]; intros index; simpl.
  - left. split; [done|]. intros j s Hj. done.
  - specialize (IH (S index)). simpl in IH.
    destruct IH as [[Hz Hall]|(j & s & Hz & Hj & Hne & Hafter)].
    + rewrite Hz. destruct x as [bucket|].
      * rewrite bool_decide_eq_true_2 by done. simpl.
        case_bool_decide as Hsz.
        -- right. exists 0%nat, bucket.
           split_and!; [f_equal; lia | done | by apply Set_size_pos |].
           intros [|j'] s' Hlt Hj'; [lia|]. by eapply Hall.
        -- left. split; [done|]. intros [|j'] s' Hj'; [|by eapply Hall].
           injection Hj' as <-.
           destruct (decide (contents σ bucket = ∅)) as [|Hne]; [done|].
           by apply Set_size_pos in Hne.
      * left. split; [done|]. intros [|j'] s' Hj'; [done | by eapply Hall].
    + assert (reduceRight_nonempty σ a (S index) (-1) ≠ -1) as Hfound by lia.
      right. exists (S j), s.
      assert (Hrest : ∀ j' s', (S j < j')%nat → (x :: a) !! j' = Some (Some s') →
                               contents σ s' = ∅).
      { intros [|j'] s' Hlt Hj'; [lia|]. eapply Hafter; [|done]. lia. }
      destruct x as [bucket|].
      * rewrite bool_decide_eq_false_2 by done. simpl.
        split_and!; [rewrite Hz; f_equal; lia | done | done | done].
      * split_and!; [rewrite Hz; f_equal; lia | done | done | done].
Qed.

Lemma Array_get_Some {A} (a : jsarray A) i x :
  Array_get i a = Some x ↔ a !! i = Some (Some x).
Proof.
  unfold Array_get. destruct (a !! i) as [[y|]|]; simpl; split; congruence.
Qed.

Lemma in_slot_lookup (σ : heap) a k c :
  in_slot σ a k c ↔
  ∃ i s, k = Z.of_nat i ∧ a !! i = Some (Some s) ∧ c ∈ contents σ s.
Proof.
  unfold in_slot. split.
  - intros (Hk & s & Hs%Array_get_Some & Hc).
    exists (Z.to_nat k), s. split_and!; [lia | done | done].
  - intros (i & s & -> & Hs & Hc). split; [lia|]. exists s.
    rewrite Nat2Z.id. split; [by apply Array_get_Some | done].
Qed.

(** The three ways a call of [getBucketRange] ends. *)
Lemma getBucketRange_cases (σ : heap) a :
  match getBucketRange σ a with
  | Throws_TypeError =>
      ∃ j, a !! j = Some None ∧
           ∀ j', (j' < j)%nat →
                 ∃ s', a !! j' = Some (Some s') ∧ contents σ s' = ∅
  | Returns None => Forall (λ x, ∃ s, x = Some s ∧ contents σ s = ∅) a
  | Returns (Some r) =>
      ∃ i j si sj,
        minBucket r = Z.of_nat i ∧ maxBucket r = Z.of_nat j ∧
        a !! i = Some (Some si) ∧ contents σ si ≠ ∅ ∧
        (∀ i', (i' < i)%nat →
               ∃ s', a !! i' = Some (Some s') ∧ contents σ s' = ∅) ∧
        a !! j = Some (Some sj) ∧ contents σ sj ≠ ∅ ∧
        (∀ j' s', (j < j')%nat → a !! j' = Some (Some s') →
                  contents σ s' = ∅)
  end.
Proof.
  unfold getBucketRange.
  pose proof (findIndex_nonempty_spec σ a 0) as Hfind.
  destruct (findIndex_nonempty σ a 0) as [z|]; [|done].
  destruct Hfind as [[-> Hall]|(i & si & -> & Hi & Hne & Hbefore)].
  - by rewrite decide_True.
  - rewrite decide_False by lia.
    destruct (reduceRight_nonempty_spec σ a 0)
      as [[_ Hnone]|(j & sj & Hz & Hj & Hnej & Hafter)].
    + destruct Hne. by eapply Hnone.
    + exists i, j, si, sj. simpl. split_and!; done.
Qed.

(** X1: [getBucketRange] returns [undefined] exactly when every slot of the
    array is a set without cards (the empty array included). *)
Theorem getBucketRange_undefined_iff (σ : heap) a :
  getBucketRange σ a = Returns None ↔
  Forall (λ x, ∃ s, x = Some s ∧ contents σ s = ∅) a.
Proof.
  pose proof (getBucketRange_cases σ a) as Hcases. split.
  - intros Heq. by rewrite Heq in Hcases.
  - intros Hall. rewrite Forall_lookup in Hall.
    destruct (getBucketRange σ a) as [[r|]|]; [| done |].
    + destruct Hcases as (i & _ & si & _ & _ & _ & Hi & Hne & _).
      destruct (Hall _ _ Hi) as (s & [= <-] & Hs). done.
    + destruct Hcases as (j & Hj & _).
      by destruct (Hall _ _ Hj) as (s & [=] & _).
Qed.

Lemma getBucketRange_undefined_iff_witness :
  getBucketRange heap_array [Some 2%positive; Some 3%positive] = Returns None.
Proof.
  apply getBucketRange_undefined_iff.
  repeat constructor; eexists; (split; [done | compute_done]).
Defined.

(** X2: [getBucketRange] throws exactly when the array has a hole that is
    reached through empty sets only: a hole after a set that has a card is
    never read by the search from the left, and the fold from the right
    skips holes. *)
Theorem getBucketRange_throws_iff (σ : heap) a :
  getBucketRange σ a = Throws_TypeError ↔
  ∃ j, a !! j = Some None ∧
       ∀ j', (j' < j)%nat → ∃ s', a !! j' = Some (Some s') ∧ contents σ s' = ∅.
Proof.
  pose proof (getBucketRange_cases σ a) as Hcases. split.
  - intros Heq. by rewrite Heq in Hcases.
  - intros (j & Hj & Hbefore).
    destruct (getBucketRange σ a) as [[r|]|]; [| | done].
    + destruct Hcases as (i & _ & si & _ & _ & _ & Hi & Hne & Hbi & _).
      destruct (Nat.lt_total i j) as [Hlt|[->|Hlt]].
      * destruct (Hbefore _ Hlt) as (s' & Hs' & Hempty). congruence.
      * congruence.
      * destruct (Hbi _ Hlt) as (s' & Hs' & _). congruence.
    + rewrite Forall_lookup in Hcases.
      by destruct (Hcases _ _ Hj) as (s & [=] & _).
Qed.

Lemma getBucketRange_throws_iff_witness :
  getBucketRange heap_array array_hole = Returns
    (Some {| minBucket := 0; maxBucket := 0 |}) ∧
  getBucketRange heap_array (None :: array_hole) = Throws_TypeError.
Proof.
  split; [done|].
  apply getBucketRange_throws_iff. exists 0%nat. split; [done | lia].
Defined.

(** X3: when [getBucketRange] returns a range, [minBucket] and [maxBucket]
    are indices of sets that have a card, and every index whose set has a
    card lies between them. *)
Theorem getBucketRange_bounds (σ : heap) a r :
  getBucketRange σ a = Returns (Some r) →
  (∃ c, in_slot σ a (minBucket r) c) ∧
  (∃ c, in_slot σ a (maxBucket r) c) ∧
  (∀ k c, in_slot σ a k c → minBucket r <= k <= maxBucket r).
Proof.
  intros Heq. pose proof (getBucketRange_cases σ a) as Hcases.
  rewrite Heq in Hcases.
  destruct Hcases as (i & j & si & sj & -> & -> & Hi & Hnei & Hbefore
                      & Hj & Hnej & Hafter).
  split_and!.
  - apply set_choose_L in Hnei as [c Hc]. exists c.
    apply in_slot_lookup. eauto.
  - apply set_choose_L in Hnej as [c Hc]. exists c.
    apply in_slot_lookup. eauto.
  - intros k c (i' & s & -> & Hi' & Hc)%in_slot_lookup. split.
    + destruct (decide (i' < i)%nat) as [Hlt|]; [|lia].
      destruct (Hbefore _ Hlt) as (s' & Hs' & Hempty).
      rewrite Hi' in Hs'. injection Hs' as <-. set_solver.
    + destruct (decide (j < i')%nat) as [Hlt|]; [|lia].
      pose proof (Hafter _ _ Hlt Hi') as Hempty. set_solver.
Qed.

Lemma getBucketRange_bounds_witness :
  (∃ c, in_slot heap_range array_range 1 c) ∧
  (∃ c, in_slot heap_range array_range 2 c).
Proof.
  destruct (getBucketRange_bounds heap_range array_range
              {| minBucket := 1; maxBucket := 2 |}) as (Hmin & Hmax & _).
  - done.
  - split; [exact Hmin | exact Hmax].
Defined.

(** ** [toBucketSets], further *)

(** The result of [toBucketSets], slot by slot: the slot of a key holds the
    very [Set] object of the map; any other slot holds a new, empty set; and
    the sets that existed before keep their members. *)
Lemma toBucketSets_slots (σ : heap) m σ' a :
  NoDup (keys m) → toBucketSets σ m = (σ', Returns_array a) →
  (∀ l, l ∈ dom σ → contents σ' l = contents σ l) ∧
  ∀ i, (i < length a)%nat →
       ∃ s, a !! i = Some (Some s) ∧
            match Map_get (Z.of_nat i) m with
            | Some s0 => s = s0
            | None => (s ∉ dom σ) ∧ contents σ' s = ∅
            end.
Proof.
  intros Hnd Hto.
  destruct (toBucketSets_spec _ _ _ _ Hnd Hto)
    as (a0 & Hfrom & Hlen0 & Hlen & Hlook).
  destruct (Array_from_new_sets_spec _ _ _ _ Hfrom) as (_ & Hold & Hnew).
  split; [intros l Hl; by destruct (Hold l Hl)|].
  intros i Hi. rewrite Hlook.
  destruct (Map_get (Z.of_nat i) m) as [s0|] eqn:Hk.
  - exists s0. rewrite decide_True by lia. done.
  - destruct (lookup_lt_is_Some_2 a0 i) as [x Hx]; [lia|].
    rewrite Forall_lookup in Hnew.
    destruct (Hnew _ _ Hx) as (s & -> & Hs & Hempty). eauto.
Qed.

Lemma toBucketSets_in_slot (σ : heap) m σ' a :
  map_ok σ m → nonneg_keys m → toBucketSets σ m = (σ', Returns_array a) →
  ∀ k c, in_slot σ' a k c ↔ in_bucket σ m k c.
Proof.
  intros [Hnd Halloc] Hnn Hto k c.
  destruct (toBucketSets_slots _ _ _ _ Hnd Hto) as [Hold Hslots].
  rewrite Forall_forall in Halloc.
  unfold nonneg_keys in Hnn. rewrite Forall_forall in Hnn.
  rewrite in_slot_lookup. split.
  - intros (i & s & -> & Hi & Hc).
    destruct (Hslots i) as (s' & Hs' & Hcase); [by eapply lookup_lt_Some|].
    rewrite Hi in Hs'. injection Hs' as <-.
    destruct (Map_get (Z.of_nat i) m) as [s0|] eqn:Hk.
    + subst s0. exists s. split; [done|]. rewrite <- Hold; [done|].
      apply Halloc. by eapply Map_get_sets.
    + destruct Hcase as [_ Hempty]. rewrite Hempty in Hc. set_solver.
  - intros (s & Hk & Hc).
    assert (0 <= k) as Hk0 by (apply Hnn; eapply in_bucket_key; by exists s).
    pose proof (key_in_range _ _ _ Hk Hk0) as Hrange.
    pose proof (toBucketSets_length _ _ _ _ Hto) as Hlen.
    destruct (Hslots (Z.to_nat k)) as (s' & Hs' & Hcase); [lia|].
    rewrite Z2Nat.id, Hk in Hcase by done. subst s'.
    exists (Z.to_nat k), s. split_and!; [lia | done |].
    rewrite Hold; [done|]. apply Halloc. by eapply Map_get_sets.
Qed.

(** X4: for a map whose bucket numbers are non-negative and below
    2^32 - 1, [toBucketSets] returns an array on which [getBucketRange] does
    not throw; it returns [undefined] when no bucket of the map has a card,
    and otherwise the smallest and the largest bucket number that have
    one. *)
Theorem getBucketRange_toBucketSets (σ : heap) m :
  map_ok σ m → nonneg_keys m → index_keys m →
  ∃ a, (toBucketSets σ m).2 = Returns_array a ∧
       match getBucketRange (toBucketSets σ m).1 a with
       | Throws_TypeError => False
       | Returns None => ∀ k c, ¬ in_bucket σ m k c
       | Returns (Some r) =>
           (∃ c, in_bucket σ m (minBucket r) c) ∧
           (∃ c, in_bucket σ m (maxBucket r) c) ∧
           (∀ k c, in_bucket σ m k c → minBucket r <= k <= maxBucket r)
       end.
Proof.
  intros Hok Hnn Hidx.
  destruct (toBucketSets_cases σ m) as [(_ & σ' & a0 & _ & Hto)|[? _]];
    [|done].
  rewrite Hto. simpl. eexists. split; [done|].
  pose proof (toBucketSets_in_slot _ _ _ _ Hok Hnn Hto) as Hslot.
  destruct Hok as [Hnd _].
  destruct (toBucketSets_slots _ _ _ _ Hnd Hto) as [_ Hslots].
  set (a := fill_buckets m a0) in *.
  pose proof (getBucketRange_cases σ' a) as Hcases.
  destruct (getBucketRange σ' a) as [[r|]|].
  - destruct Hcases as (i & j & si & sj & Hmin & Hmax & Hi & Hnei & Hbefore
                        & Hj & Hnej & Hafter).
    split_and!.
    + apply set_choose_L in Hnei as [c Hc]. exists c.
      apply Hslot, in_slot_lookup. eauto.
    + apply set_choose_L in Hnej as [c Hc]. exists c.
      apply Hslot, in_slot_lookup. eauto.
    + intros k c (i' & s & -> & Hi' & Hc)%Hslot%in_slot_lookup.
      rewrite Hmin, Hmax. split.
      * destruct (decide (i' < i)%nat) as [Hlt|]; [|lia].
        destruct (Hbefore _ Hlt) as (s' & Hs' & Hempty).
        rewrite Hi' in Hs'. injection Hs' as <-. set_solver.
      * destruct (decide (j < i')%nat) as [Hlt|]; [|lia].
        pose proof (Hafter _ _ Hlt Hi') as Hempty. set_solver.
  - intros k c (i & s & -> & Hi & Hc)%Hslot%in_slot_lookup.
    rewrite Forall_lookup in Hcases.
    destruct (Hcases _ _ Hi) as (s' & [= <-] & Hempty). set_solver.
  - destruct Hcases as (j & Hj & _).
    destruct (Hslots j) as (s & Hs & _); [by eapply lookup_lt_Some|].
    congruence.
Qed.

Lemma getBucketRange_toBucketSets_witness :
  ∃ a, (toBucketSets heap_three map_three).2 = Returns_array a ∧
       getBucketRange (toBucketSets heap_three map_three).1 a
       ≠ Throws_TypeError.
Proof.
  destruct (getBucketRange_toBucketSets heap_three map_three)
    as (a & Ha & Hrange).
  - split; compute_done.
  - compute_done.
  - compute_done.
  - exists a. split; [done|]. intros Heq. by rewrite Heq in Hrange.
Defined.

Lemma fill_buckets_no_holes m : ∀ a : jsarray loc,
  Forall (λ k, 0 <= k → (Z.to_nat k < length a)%nat) (keys m) →
  Forall is_Some a → Forall is_Some (fill_buckets m a).
Proof.
  unfold keys. induction m as [|[k s] m IH]; intros a; csimpl; [done|].
  intros [Hrange Hrest]%Forall_cons Hall.
  destruct (decide (0 <= k)) as [Hk0|Hk0].
  - rewrite Array_set_in_range by auto. apply IH.
    + by rewrite length_insert.
    + apply Forall_insert; [done | eauto].
  - unfold Array_set. rewrite decide_False by done. by apply IH.
Qed.

(** X5: an array returned by [toBucketSets] has no hole: every index below
    its length holds a [Set] object, whatever the keys of the map are. *)
Theorem toBucketSets_no_holes (σ : heap) m a i :
  (toBucketSets σ m).2 = Returns_array a →
  (i < length a)%nat →
  is_Some (Array_get i a).
Proof.
  intros Ha Hi.
  destruct (toBucketSets σ m) as [σ' r] eqn:Hto. simpl in Ha. subst r.
  destruct (toBucketSets_Returns _ _ _ _ Hto) as (_ & a0 & Hfrom & ->).
  assert (Forall is_Some (fill_buckets m a0)) as Hall.
  { destruct (Array_from_new_sets_spec _ _ _ _ Hfrom) as (Hlen & _ & Hnew).
    apply fill_buckets_no_holes.
    - apply Forall_forall. intros k Hk%max_key_ge Hk0. lia.
    - eapply Forall_impl; [done|]. intros x (s & -> & _). eauto. }
  destruct (lookup_lt_is_Some_2 _ _ Hi) as [x Hx].
  rewrite Forall_lookup in Hall. destruct (Hall _ _ Hx) as [s ->].
  exists s. by apply Array_get_Some.
Qed.

Lemma toBucketSets_no_holes_witness :
  match (toBucketSets heap_three map_three).2 with
  | Returns_array a => is_Some (Array_get 4 a)
  | Throws_RangeError => False
  end.
Proof.
  destruct (toBucketSets heap_three map_three).2 as [a|] eqn:Ha;
    [|by vm_compute in Ha].
  apply (toBucketSets_no_holes heap_three map_three a 4 Ha).
  vm_compute in Ha. injection Ha as <-. compute_done.
Defined.

(** X6: an array returned by [toBucketSets] shares the [Set] objects of the
    map: the slot of a key holds the same object as the map does under that
    key, not a copy; a slot whose index is not a key holds an object that did
    not exist before the call. *)
Theorem toBucketSets_shares_sets (σ : heap) m a :
  NoDup (keys m) → (toBucketSets σ m).2 = Returns_array a →
  (∀ k s, 0 <= k → Map_get k m = Some s →
          Array_get (Z.to_nat k) a = Some s) ∧
  (∀ i s, Map_get (Z.of_nat i) m = None →
          Array_get i a = Some s → s ∉ dom σ).
Proof.
  intros Hnd Ha.
  destruct (toBucketSets σ m) as [σ' r] eqn:Hto. simpl in Ha. subst r.
  destruct (toBucketSets_slots _ _ _ _ Hnd Hto) as [_ Hslots].
  pose proof (toBucketSets_length _ _ _ _ Hto) as Hlen.
  split.
  - intros k s Hk0 Hk. pose proof (key_in_range _ _ _ Hk Hk0) as Hrange.
    destruct (Hslots (Z.to_nat k)) as (s' & Hs' & Hcase); [lia|].
    rewrite Z2Nat.id, Hk in Hcase by done. subst s'.
    by apply Array_get_Some.
  - intros i s Hk Hs%Array_get_Some.
    destruct (Hslots i) as (s' & Hs' & Hcase); [by eapply lookup_lt_Some|].
    rewrite Hk in Hcase. rewrite Hs in Hs'. injection Hs' as <-.
    by destruct Hcase.
Qed.

Lemma toBucketSets_shares_sets_witness :
  match (toBucketSets heap_three map_three).2 with
  | Returns_array a => Array_get 3 a = Some 2%positive
  | Throws_RangeError => False
  end.
Proof.
  destruct (toBucketSets heap_three map_three).2 as [a|] eqn:Ha;
    [|by vm_compute in Ha].
  refine (proj1 (toBucketSets_shares_sets heap_three map_three a _ Ha)
            3 2%positive _ _).
  - compute_done.
  - done.
  - done.
Defined.

(** X7: [toBucketSets] changes no set that existed before the call: the sets
    it allocates are new objects, and the sets of the map are only
    referenced. *)
Theorem toBucketSets_keeps_sets (σ : heap) m l :
  l ∈ dom σ →
  l ∈ dom (toBucketSets σ m).1 ∧
  contents (toBucketSets σ m).1 l = contents σ l.
Proof.
  intros Hl.
  destruct (toBucketSets_cases σ m) as [(_ & σ' & a0 & Hfrom & ->)|[_ ->]];
    [|done].
  destruct (Array_from_new_sets_spec _ _ _ _ Hfrom) as (_ & Hold & _).
  by apply Hold.
Qed.

Lemma toBucketSets_keeps_sets_witness :
  contents (toBucketSets heap_three map_three).1 2%positive
  = contents heap_three 2%positive.
Proof.
  refine (proj2 (toBucketSets_keeps_sets heap_three map_three 2%positive _)).
  compute_done.
Defined.

(** X21: [toBucketSets] throws a [RangeError] exactly when some bucket
    number of the map is 2^32 - 1 or more, the array form then needing more
    slots than an array can have; it throws before it allocates any set, so
    the heap is as it was. *)
Theorem toBucketSets_throws_iff (σ : heap) m :
  ((toBucketSets σ m).2 = Throws_RangeError ↔
   Exists (λ k, MAX_ARRAY_LENGTH <= k) (keys m)) ∧
  ((toBucketSets σ m).2 = Throws_RangeError → (toBucketSets σ m).1 = σ).
Proof.
  assert (Hidx : ¬ index_keys m ↔ Exists (λ k, MAX_ARRAY_LENGTH <= k) (keys m)).
  { rewrite max_key_index, Exists_exists. split.
    - intros Hmax. exists (max_key m).
      destruct (max_key_cases m) as [Heq|Hin]; [unfold MAX_ARRAY_LENGTH in *|];
        [lia | split; [done | lia]].
    - intros (k & Hk%max_key_ge & Hle). lia. }
  rewrite <- Hidx.
  destruct (toBucketSets_cases σ m) as [(Hok & σ' & a0 & _ & ->)|[Hnot ->]];
    simpl.
  - split; [|done]. split; [done | by intros []].
  - done.
Qed.

Lemma toBucketSets_throws_iff_witness :
  (toBucketSets heap_one map_huge).2 = Throws_RangeError.
Proof.
  apply (proj1 (toBucketSets_throws_iff heap_one map_huge)).
  apply Exists_exists. exists 4294967295. split; [left | done].
Defined.

(** ** [update], further *)

(** The heap after the search: the same sets, and the same members apart
    from the card. *)
Lemma search_heap (σ : heap) c m cb0 σ1 cb :
  find_and_delete σ c m cb0 = (σ1, cb) →
  dom σ1 = dom σ ∪ dom σ1 ∧
  (cb = cb0 ∨ cb ∈ keys m) ∧
  (∀ l, l ∉ sets m → contents σ1 l = contents σ l) ∧
  (∀ l c', c' ≠ c → c' ∈ contents σ1 l ↔ c' ∈ contents σ l).
Proof.
  intros Hfind.
  destruct (find_and_delete_spec σ c m cb0)
    as [(k0 & s0 & Hin & Hc & Heq)|[_ Heq]];
    rewrite Heq in Hfind; injection Hfind as <- <-.
  - split_and!.
    + rewrite dom_insert_L. set_solver.
    + right. apply list_elem_of_fmap. by exists (k0, s0).
    + intros l Hl. rewrite contents_insert, decide_False; [done|].
      intros <-. apply Hl. apply list_elem_of_fmap. by exists (k0, s0).
    + intros l c' Hne. rewrite contents_insert.
      case_decide; [subst; set_solver | done].
  - split_and!; [set_solver | by left | done | done].
Qed.

(** The heap after the card is placed. *)
Lemma placed_heap (σ1 : heap) m nb c σ' m' :
  placed σ1 m nb c (σ', m') →
  (m' = m ∨ ∃ s, Map_get nb m = None ∧ (s ∉ dom σ1) ∧ m' = m ++ [(nb, s)]) ∧
  (∀ l, l ∈ dom σ1 → l ∉ sets m → contents σ' l = contents σ1 l) ∧
  (∀ l c', l ∈ dom σ1 → c' ≠ c → c' ∈ contents σ' l ↔ c' ∈ contents σ1 l) ∧
  (∀ s c', Map_get nb m = None → Map_get nb m' = Some s → c' ≠ c →
           c' ∉ contents σ' s).
Proof.
  intros [(s & Hget & [= -> ->])|[Hget [= -> ->]]].
  - split_and!.
    + by left.
    + intros l _ Hl. rewrite contents_insert, decide_False; [done|].
      intros <-. apply Hl. by eapply Map_get_sets.
    + intros l c' _ Hne. rewrite contents_insert.
      case_decide; [subst; set_solver | done].
    + intros s' c' Hnone. congruence.
  - pose proof (is_fresh (dom σ1)) as Hfresh. split_and!.
    + right. eauto.
    + intros l Hl _. rewrite contents_insert, decide_False; [done|].
      by intros <-.
    + intros l c' Hl Hne. rewrite contents_insert, decide_False; [done|].
      by intros <-.
    + intros s' c' _. rewrite Map_get_snoc, Hget, decide_True by done.
      intros [= <-] Hne. rewrite contents_insert, decide_True by done.
      set_solver.
Qed.

Lemma Map_get_app_l k s m m2 :
  Map_get k m = Some s → Map_get k (m ++ m2) = Some s.
Proof.
  induction m as [|[k' s'] m IH]; simpl; [done|]. by case_decide.
Qed.

(** X8: [update] moves one card only: for every other card, and every
    bucket number, being in that bucket of the returned map is the same as
    being in that bucket of the input map. *)
Theorem update_keeps_other_cards (σ : heap) m c d k c' :
  map_ok σ m → c' ≠ c →
  in_bucket (update σ m c d).1 (update σ m c d).2 k c' ↔ in_bucket σ m k c'.
Proof.
  intros [Hnd Halloc] Hne. rewrite Forall_forall in Halloc.
  destruct (find_and_delete σ c m (-1)) as [σ1 cb] eqn:Hfind.
  pose proof (update_placed σ m c d σ1 cb Hfind) as Hpl.
  destruct (update σ m c d) as [σ' m']. simpl.
  destruct (search_heap _ _ _ _ _ _ Hfind) as (Hdom & _ & _ & Hmem1).
  destruct (placed_heap _ _ _ _ _ _ Hpl) as (Hm' & _ & Hmem2 & Hnew).
  assert (Hlive : ∀ k0 s, Map_get k0 m = Some s → s ∈ dom σ1).
  { intros k0 s Hs%Map_get_sets%Halloc. set_solver. }
  unfold in_bucket. destruct Hm' as [->|(s0 & Hnone & Hs0 & ->)].
  - split; intros (s & Hk & Hc); exists s; (split; [done|]).
    + apply Hmem1, Hmem2; eauto.
    + apply Hmem2, Hmem1; eauto.
  - split.
    + intros (s & Hk & Hc). destruct (Map_get k m) as [s1|] eqn:Hk1.
      * rewrite (Map_get_app_l _ _ _ _ Hk1) in Hk. injection Hk as <-.
        exists s1. split; [done|]. apply Hmem1, Hmem2; eauto.
      * rewrite Map_get_snoc, Hk1 in Hk. case_decide as Hknb; [|done].
        subst k. destruct (Hnew s c'); try done.
        by rewrite Map_get_snoc, Hk1, decide_True.
    + intros (s & Hk & Hc). exists s.
      split; [by apply Map_get_app_l|]. apply Hmem2, Hmem1; eauto.
Qed.

Lemma update_keeps_other_cards_witness :
  in_bucket (update heap_three map_three card1 Easy).1
            (update heap_three map_three card1 Easy).2 5 card3.
Proof.
  apply update_keeps_other_cards.
  - split; compute_done.
  - done.
  - exists 3%positive. split; [done | compute_done].
Defined.

(** The map [update] returns: the input's entries, and one more entry for
    the destination when the input has no such key. *)
Lemma update_map_cases (σ : heap) m c d :
  (is_Some (Map_get (target σ m c d) m) ∧ (update σ m c d).2 = m) ∨
  (Map_get (target σ m c d) m = None ∧
   ∃ s, (s ∉ dom σ) ∧ (update σ m c d).2 = m ++ [(target σ m c d, s)]).
Proof.
  unfold target.
  destruct (find_and_delete σ c m (-1)) as [σ1 cb] eqn:Hfind. simpl.
  pose proof (update_placed σ m c d σ1 cb Hfind) as Hpl.
  destruct (search_heap _ _ _ _ _ _ Hfind) as (Hdom & _).
  destruct Hpl as [(s & Hget & ->)|[Hget ->]].
  - left. split; [eauto | done].
  - right. split; [done|]. eexists. split; [|done].
    pose proof (is_fresh (dom σ1)). set_solver.
Qed.

(** X9: [update] never removes or reorders an entry of the map: the
    returned map has the entries of the input, with the same [Set] objects,
    followed by at most one new entry, whose key the input did not have and
    whose set is a new object.  The bucket the card leaves stays in the map,
    as an entry with one card less. *)
Theorem update_entries (σ : heap) m c d :
  (update σ m c d).2 = m ∨
  ∃ k s, Map_get k m = None ∧ (s ∉ dom σ) ∧
         (update σ m c d).2 = m ++ [(k, s)].
Proof.
  destruct (update_map_cases σ m c d) as [[_ Heq]|(Hnone & s & Hs & Heq)].
  - by left.
  - right. eauto.
Qed.

(** X10: [update] touches the sets of the map only: a [Set] object that
    exists at the call and is not a value of the map has the same members
    after it. *)
Theorem update_keeps_foreign_sets (σ : heap) m c d l :
  l ∈ dom σ → l ∉ sets m →
  contents (update σ m c d).1 l = contents σ l.
Proof.
  intros Hl Hnot.
  destruct (find_and_delete σ c m (-1)) as [σ1 cb] eqn:Hfind.
  pose proof (update_placed σ m c d σ1 cb Hfind) as Hpl.
  destruct (update σ m c d) as [σ' m']. simpl.
  destruct (search_heap _ _ _ _ _ _ Hfind) as (Hdom & _ & Hkeep1 & _).
  destruct (placed_heap _ _ _ _ _ _ Hpl) as (_ & Hkeep2 & _).
  rewrite Hkeep2, Hkeep1; [done | done | set_solver | done].
Qed.

Lemma update_keeps_foreign_sets_witness :
  contents (update heap_three map_one card1 Wrong).1 3%positive
  = contents heap_three 3%positive.
Proof. apply update_keeps_foreign_sets; compute_done. Defined.

(** A [Map] stays a [Map]: distinct keys, live sets. *)
Lemma update_map_ok (σ : heap) m c d :
  map_ok σ m → map_ok (update σ m c d).1 (update σ m c d).2.
Proof.
  intros Hok.
  destruct (find_and_delete σ c m (-1)) as [σ1 cb] eqn:Hfind.
  pose proof (update_placed σ m c d σ1 cb Hfind) as Hpl.
  destruct (search_ok _ _ _ _ _ Hok Hfind) as [Hnd Halloc].
  destruct Hpl as [(s & Hget & ->)|[Hget ->]]; simpl.
  - split; [done|]. eapply Forall_impl; [done|]. intros s' Hs'. simpl in Hs'.
    rewrite dom_insert_L. set_solver.
  - unfold map_ok, keys, sets in *. rewrite !fmap_app. simpl. split.
    + apply NoDup_app. split_and!; [done | | apply NoDup_singleton].
      intros k Hk ->%list_elem_of_singleton. by apply Map_get_None in Hget.
    + apply Forall_app. split.
      * eapply Forall_impl; [done|]. intros s' Hs'. simpl in Hs'.
        rewrite dom_insert_L. set_solver.
      * apply Forall_singleton. rewrite dom_insert_L. set_solver.
Qed.

(** For a card that exclusivity puts in bucket [cur], the search finds that
    bucket and its set, and the destination is computed from it. *)
Lemma update_of_tracked (σ : heap) m c d cur :
  map_ok σ m → exclusive σ m → in_bucket σ m cur c → cur ≠ -1 →
  ∃ s0, Map_get cur m = Some s0 ∧ c ∈ contents σ s0 ∧
        target σ m c d = new_bucket d cur ∧
        placed (<[s0 := contents σ s0 ∖ {[c]}]> σ) m (new_bucket d cur) c
          (update σ m c d).
Proof.
  intros Hok Hex Hin Hcur. unfold target.
  destruct (find_and_delete σ c m (-1)) as [σ1 cb] eqn:Hfind. simpl.
  pose proof (search_current _ _ _ _ _ _ Hok Hex Hfind Hin) as ->.
  pose proof (update_placed σ m c d σ1 cur Hfind) as Hpl.
  rewrite decide_False in Hpl |- * by done.
  destruct (search_cases _ _ _ _ _ Hok Hfind)
    as [(s0 & Hget & Hc & ->)|(_ & _ & ?)]; [|done].
  eauto.
Qed.

(** The memberships after one [update] of a card that is in bucket [cur],
    in a map with no [Set] object shared between two buckets. *)
Lemma update_tracked (σ : heap) m c d cur σ' m' :
  map_ok σ m → separate m → exclusive σ m →
  in_bucket σ m cur c → cur ≠ -1 → update σ m c d = (σ', m') →
  (map_ok σ' m' ∧ separate m' ∧ exclusive σ' m') ∧
  ∀ k c', in_bucket σ' m' k c' ↔
          (c' = c ∧ k = new_bucket d cur) ∨ (c' ≠ c ∧ in_bucket σ m k c').
Proof.
  intros Hok Hsep Hex Hin Hcur Hupd.
  destruct (update_ok _ _ _ _ _ _ Hok Hsep Hupd) as [Hok' Hsep'].
  destruct (update_of_tracked σ m c d cur Hok Hex Hin Hcur)
    as (_ & _ & _ & Htarget & _).
  split_and!; [done | done | |].
  - exact (update_exclusive _ _ _ _ _ _ Hok Hsep Hex Hupd).
  - intros k c'. rewrite (update_in_bucket _ _ _ _ _ _ Hok Hsep Hex Hupd).
    by rewrite Htarget.
Qed.

(** X11: at the ends of the scale [update] changes nothing: in a map with
    the exclusivity invariant, for a card whose destination is the bucket it
    is in ([Wrong] or [Hard] in bucket 0, [Easy] in bucket 4), the returned
    map has the entries of the input and every card is in the bucket it was
    in. *)
Theorem update_stays_in_place (σ : heap) m c d cur :
  map_ok σ m → exclusive σ m →
  in_bucket σ m cur c →
  match d with Wrong | Hard => cur = 0 | Easy => cur = 4 end →
  (update σ m c d).2 = m ∧
  ∀ k c', in_bucket (update σ m c d).1 (update σ m c d).2 k c' ↔
          in_bucket σ m k c'.
Proof.
  intros Hok Hex Hin Hd.
  assert (new_bucket d cur = cur ∧ cur ≠ -1) as [Hsame Hcur]
    by (destruct d; subst; done).
  destruct (update_of_tracked σ m c d cur Hok Hex Hin Hcur)
    as (s0 & Hget & Hc & _ & Hpl).
  rewrite Hsame in Hpl.
  destruct Hpl as [(s & Hget' & ->)|[Hnone _]]; [|congruence].
  simpl. rewrite Hget in Hget'. injection Hget' as <-.
  split; [done|]. intros k c'.
  assert (Hsame_contents : ∀ l, contents
            (<[s0 := contents (<[s0 := contents σ s0 ∖ {[c]}]> σ) s0 ∪ {[c]}]>
               (<[s0 := contents σ s0 ∖ {[c]}]> σ)) l = contents σ l).
  { intros l. rewrite !contents_insert. rewrite (decide_True (P := s0 = s0)) by done.
    case_decide as Hl; [|done]. subst l. apply set_eq. intros x.
    destruct (decide (x = c)) as [->|]; set_solver. }
  unfold in_bucket. by setoid_rewrite Hsame_contents.
Qed.

Lemma update_stays_in_place_witness :
  (update heap_three map_three card1 Hard).2 = map_three.
Proof.
  refine (proj1 (update_stays_in_place heap_three map_three card1 Hard 0
                   _ _ _ _)).
  - split; compute_done.
  - solve_exclusive.
  - exists 1%positive. split; [done | compute_done].
  - done.
Defined.

(** X12: a step up and a step down cancel: in a map with the exclusivity
    invariant and no [Set] object shared between two buckets, for a card in
    bucket [cur], [Easy] followed by [Hard] (when [0 <= cur <= 3]) and [Hard]
    followed by [Easy] (when [1 <= cur <= 4]) leave every card in the bucket
    it was in. *)
Theorem update_there_and_back (σ : heap) m c d1 d2 cur :
  map_ok σ m → separate m → exclusive σ m →
  in_bucket σ m cur c →
  (d1 = Easy ∧ d2 = Hard ∧ 0 <= cur <= 3) ∨
  (d1 = Hard ∧ d2 = Easy ∧ 1 <= cur <= 4) →
  ∀ k c',
    in_bucket (updates σ m [(c, d1); (c, d2)]).1
              (updates σ m [(c, d1); (c, d2)]).2 k c' ↔
    in_bucket σ m k c'.
Proof.
  intros Hok Hsep Hex Hin Hd k c'.
  assert (0 <= cur <= 4) as Hcur by (destruct Hd as [(_ & _ & ?)|(_ & _ & ?)]; lia).
  assert (0 <= new_bucket d1 cur <= 5 ∧
          new_bucket d2 (new_bucket d1 cur) = cur) as [Hmid Hback].
  { unfold MAX_SAFE_INTEGER.
    destruct Hd as [(-> & -> & ?)|(-> & -> & ?)];
      rewrite (new_bucket_exact _ cur)
        by (first [lia | intros _; unfold MAX_SAFE_INTEGER; lia]);
      (split; [lia|]);
      rewrite new_bucket_exact
        by (first [lia | intros _; unfold MAX_SAFE_INTEGER; lia]); lia. }
  simpl. destruct (update σ m c d1) as [σ1 m1] eqn:Hupd1.
  destruct (update_tracked _ _ _ _ _ _ _ Hok Hsep Hex Hin ltac:(lia) Hupd1)
    as ((Hok1 & Hsep1 & Hex1) & Hmem1).
  assert (in_bucket σ1 m1 (new_bucket d1 cur) c) as Hin1
    by (apply Hmem1; by left).
  destruct (update σ1 m1 c d2) as [σ2 m2] eqn:Hupd2.
  destruct (update_tracked _ _ _ _ _ _ _ Hok1 Hsep1 Hex1 Hin1 ltac:(lia) Hupd2)
    as (_ & Hmem2).
  simpl. rewrite Hmem2, Hback, Hmem1.
  destruct (decide (c' = c)) as [->|Hne]; [|tauto].
  split.
  - intros [[_ ->]|[? _]]; done.
  - intros Hk. left. split; [done|]. by eapply Hex.
Qed.

Lemma update_there_and_back_witness :
  in_bucket (updates heap_three map_three [(card2, Easy); (card2, Hard)]).1
            (updates heap_three map_three [(card2, Easy); (card2, Hard)]).2
            3 card2.
Proof.
  apply (update_there_and_back heap_three map_three card2 Easy Hard 3).
  - split; compute_done.
  - compute_done.
  - solve_exclusive.
  - exists 2%positive. split; [done | compute_done].
  - left. repeat split; lia.
  - exists 2%positive. split; [done | compute_done].
Defined.

(** X13: the input map sees the move.  In a map with the exclusivity
    invariant, for a card in a bucket [cur], not negative, whose destination
    as the code computes it is another bucket: the returned map shares the
    [Set] objects of the input, so after the call the card is gone from
    bucket [cur] of the input map too, and it is in its new bucket of the
    input map whenever the input has that key. *)
Theorem update_moves_card_in_input (σ : heap) m c d cur :
  map_ok σ m → exclusive σ m →
  in_bucket σ m cur c → 0 <= cur →
  new_bucket d cur ≠ cur →
  ¬ in_bucket (update σ m c d).1 m cur c ∧
  (is_Some (Map_get (new_bucket d cur) m) →
   in_bucket (update σ m c d).1 m (new_bucket d cur) c).
Proof.
  intros Hok Hex Hin Hsafe Hmove.
  destruct (update_of_tracked σ m c d cur Hok Hex Hin ltac:(lia))
    as (s0 & Hget & Hc & _ & Hpl).
  destruct Hok as [Hnd Halloc]. rewrite Forall_forall in Halloc.
  pose proof (Halloc _ (Map_get_sets _ _ _ Hget)) as Hlive.
  destruct Hpl as [(s & Hget' & ->)|[Hnone ->]]; simpl.
  - assert (s ≠ s0) as Hne.
    { intros ->. apply Hmove. eapply Hex; [exists s0 | exists s0]; eauto. }
    split.
    + intros (s' & Hs' & Hc'). rewrite Hget in Hs'. injection Hs' as <-.
      rewrite !contents_insert, decide_False, decide_True in Hc' by done.
      set_solver.
    + intros _. exists s. split; [done|].
      rewrite contents_insert, decide_True by done. set_solver.
  - split; [|rewrite Hnone; by intros [? ?]].
    intros (s' & Hs' & Hc'). rewrite Hget in Hs'. injection Hs' as <-.
    rewrite !contents_insert in Hc'.
    rewrite decide_False, decide_True in Hc' by
      (try done; intros Heq; pose proof (is_fresh
         (dom (<[s0 := contents σ s0 ∖ {[c]}]> σ))) as Hf;
       rewrite Heq, dom_insert_L in Hf; set_solver).
    set_solver.
Qed.

Lemma update_moves_card_in_input_witness :
  ¬ in_bucket (update heap_three map_three card2 Wrong).1 map_three 3 card2.
Proof.
  refine (proj1 (update_moves_card_in_input heap_three map_three card2 Wrong 3
                   _ _ _ _ _)).
  - split; compute_done.
  - solve_exclusive.
  - exists 2%positive. split; [done | compute_done].
  - done.
  - done.
Defined.

Lemma max_key_snoc m k s : max_key (m ++ [(k, s)]) = Z.max (max_key m) k.
Proof.
  unfold max_key, keys. induction m as [|[k' s'] m IH]; csimpl; [lia|].
  rewrite IH. lia.
Qed.

Lemma target_bound (σ : heap) m c d :
  index_keys m → target σ m c d <= Z.max 4 (max_key m).
Proof.
  intros Hidx. unfold target.
  destruct (find_and_delete σ c m (-1)) as [σ1 cb] eqn:Hfind. simpl.
  destruct (search_heap _ _ _ _ _ _ Hfind) as (_ & Hcb & _).
  unfold index_keys, MAX_ARRAY_LENGTH in *. rewrite Forall_forall in Hidx.
  set (cur := if decide (cb = -1) then 0 else cb).
  assert (cur <= Z.max 0 (max_key m) ∧ cur < 4294967295) as [Hcur Hlt].
  { subst cur. destruct Hcb as [->|Hcb]; [rewrite decide_True by done; lia|].
    pose proof (Hidx _ Hcb). pose proof (max_key_ge _ _ Hcb).
    case_decide; lia. }
  destruct d; simpl; [lia | | lia].
  destruct (decide (0 <= cur)).
  - rewrite round_double_exact by lia. lia.
  - pose proof (round_double_nonpos (cur - 1)). lia.
Qed.

(** X14: for a map whose bucket numbers are below 2^32 - 1, the array form
    exists before and after an [update]; it never gets shorter by the
    [update], and the [update] never makes it longer than five slots
    (buckets 0 to 4) unless it was longer already. *)
Theorem update_array_length (σ : heap) m c d :
  index_keys m →
  ∃ a a',
    (toBucketSets σ m).2 = Returns_array a ∧
    (toBucketSets (update σ m c d).1 (update σ m c d).2).2 = Returns_array a' ∧
    (length a ≤ length a')%nat ∧
    (length a' ≤ Nat.max 5 (length a))%nat.
Proof.
  intros Hidx.
  pose proof (target_bound σ m c d Hidx) as Hbound.
  pose proof (proj1 (max_key_index m) Hidx) as Hmax.
  assert (index_keys (update σ m c d).2 ∧
          max_key m <= max_key (update σ m c d).2 <= Z.max 4 (max_key m))
    as [Hidx' Hmax'].
  { destruct (update_map_cases σ m c d) as [[_ ->]|(_ & s & _ & ->)].
    - split; [done | lia].
    - rewrite max_key_index, max_key_snoc.
      unfold MAX_ARRAY_LENGTH in *. lia. }
  destruct (toBucketSets_cases σ m) as [(_ & σ1 & a0 & _ & Hto)|[? _]];
    [|done].
  destruct (toBucketSets_cases (update σ m c d).1 (update σ m c d).2)
    as [(_ & σ2 & a0' & _ & Hto')|[? _]]; [|done].
  pose proof (toBucketSets_length _ _ _ _ Hto) as Hlen.
  pose proof (toBucketSets_length _ _ _ _ Hto') as Hlen'.
  rewrite Hto, Hto'. simpl. do 2 eexists.
  split_and!; [done | done | lia | lia].
Qed.

Lemma update_array_length_witness :
  ∃ a a',
    (toBucketSets heap_three map_three).2 = Returns_array a ∧
    (toBucketSets (update heap_three map_three card1 Easy).1
                  (update heap_three map_three card1 Easy).2).2
    = Returns_array a' ∧
    (length a ≤ length a')%nat.
Proof.
  destruct (update_array_length heap_three map_three card1 Easy)
    as (a & a' & Ha & Ha' & Hle & _).
  - compute_done.
  - eauto.
Defined.

Lemma placed_has_card (σ1 : heap) m nb c σ' m' :
  placed σ1 m nb c (σ', m') → in_bucket σ' m' nb c.
Proof.
  intros [(s & Hget & [= -> ->])|[Hget [= -> ->]]].
  - exists s. split; [done|]. rewrite contents_insert, decide_True by done.
    set_solver.
  - eexists. rewrite Map_get_snoc, Hget, decide_True by done.
    split; [done|]. rewrite contents_insert, decide_True by done. set_solver.
Qed.

Lemma update_keeps_cards (σ : heap) m c d c' :
  map_ok σ m → (∃ k, in_bucket σ m k c') →
  ∃ k, in_bucket (update σ m c d).1 (update σ m c d).2 k c'.
Proof.
  intros Hok [k Hin]. destruct (decide (c' = c)) as [->|Hne].
  - destruct (find_and_delete σ c m (-1)) as [σ1 cb] eqn:Hfind.
    pose proof (update_placed σ m c d σ1 cb Hfind) as Hpl.
    destruct (update σ m c d) as [σ' m']. simpl.
    eexists. by eapply placed_has_card.
  - exists k. destruct Hok as [Hnd Halloc]. rewrite Forall_forall in Halloc.
    destruct (find_and_delete σ c m (-1)) as [σ1 cb] eqn:Hfind.
    pose proof (update_placed σ m c d σ1 cb Hfind) as Hpl.
    destruct (update σ m c d) as [σ' m']. simpl.
    destruct (search_heap _ _ _ _ _ _ Hfind) as (Hdom & _ & _ & Hmem1).
    destruct (placed_heap _ _ _ _ _ _ Hpl) as (Hm' & _ & Hmem2 & _).
    destruct Hin as (s & Hk & Hc). exists s. split.
    + destruct Hm' as [->|(s0 & _ & _ & ->)]; [done | by apply Map_get_app_l].
    + apply Hmem2, Hmem1; [|done..].
      apply Map_get_sets, Halloc in Hk. set_solver.
Qed.

(** X15: [update] never loses a card: a card that is in some bucket of the
    map is in some bucket of the map returned after any finite sequence of
    [update] calls, whichever cards and outcomes they are for. *)
Theorem updates_keep_cards (σ : heap) m trials c' :
  map_ok σ m → (∃ k, in_bucket σ m k c') →
  ∃ k, in_bucket (updates σ m trials).1 (updates σ m trials).2 k c'.
Proof.
  revert σ m. induction trials as [|[c d] trials IH]; intros σ m Hok Hin.
  - done.
  - simpl. pose proof (update_keeps_cards σ m c d c' Hok Hin) as Hin'.
    pose proof (update_map_ok σ m c d Hok) as Hok'.
    destruct (update σ m c d) as [σ1 m1]. by apply IH.
Qed.

Lemma updates_keep_cards_witness :
  ∃ k, in_bucket
         (updates heap_three map_three [(card1, Easy); (card3, Wrong)]).1
         (updates heap_three map_three [(card1, Easy); (card3, Wrong)]).2
         k card2.
Proof.
  apply updates_keep_cards.
  - split; compute_done.
  - exists 3, 2%positive. split; [done | compute_done].
Defined.

(** ** [computeProgress], further *)

Lemma Array_write_end {A} (x : A) (a : jsarray A) :
  Array_write (length a) x a = a ++ [Some x].
Proof.
  unfold Array_write. rewrite decide_False by lia.
  by rewrite Nat.sub_diag.
Qed.

Lemma progress_forEach_distribution (σ : heap) a : ∀ index acc,
  Forall is_Some a → length (bucketDistribution acc) = index →
  bucketDistribution (progress_forEach σ a index acc)
  = bucketDistribution acc ++ ((λ x : option loc, Set_size σ <$> x) <$> a).
Proof.
  induction a as [|x a IH]; intros index acc Hall Hlen; simpl.
  - by rewrite app_nil_r.
  - apply Forall_cons in Hall as [[s ->] Hall].
    rewrite IH; simpl; [| done |].
    + rewrite <- Hlen, Array_write_end, <- app_assoc. done.
    + rewrite <- Hlen, Array_write_end, length_app. simpl. lia.
Qed.

(** X16: for an array without holes, [bucketDistribution] is the array of
    the sizes of the sets, index by index (an empty set counts 0), and it is
    as long as the array. *)
Theorem computeProgress_array_distribution (σ : heap) a history :
  Forall is_Some a →
  ∃ p, computeProgress σ (JArray a) history = Returns p ∧
       bucketDistribution p = ((λ x : option loc, Set_size σ <$> x) <$> a).
Proof.
  intros Hall. eexists. split; [done|].
  by rewrite progress_forEach_distribution.
Qed.

Lemma computeProgress_array_distribution_witness :
  ∃ p, computeProgress heap_range (JArray array_range) JNull = Returns p ∧
       bucketDistribution p
       = [Some 0%nat; Some 1%nat; Some 1%nat; Some 0%nat].
Proof.
  destruct (computeProgress_array_distribution heap_range array_range JNull)
    as (p & Hp & Hdist).
  - repeat constructor; eauto.
  - exists p. split; [done|]. rewrite Hdist. by vm_compute.
Defined.

Lemma Array_get_write {A} i j (x : A) (a : jsarray A) :
  Array_get i (Array_write j x a)
  = if decide (i = j) then Some x else Array_get i a.
Proof.
  unfold Array_get, Array_write. case_decide as Hj.
  - destruct (decide (i = j)) as [->|Hne].
    + by rewrite list_lookup_insert_eq.
    + by rewrite list_lookup_insert_ne.
  - destruct (decide (i = j)) as [->|Hne].
    + rewrite lookup_app_r by lia.
      rewrite lookup_app_r by (rewrite length_replicate; lia).
      rewrite length_replicate, Nat.sub_diag. done.
    + destruct (decide (i < length a)%nat).
      * by rewrite lookup_app_l.
      * rewrite (lookup_ge_None_2 a) by lia.
        rewrite lookup_app_r by lia.
        destruct (decide (i < j)%nat).
        -- rewrite lookup_app_l by (rewrite length_replicate; lia).
           rewrite lookup_replicate_2 by lia. done.
        -- rewrite lookup_app_r by (rewrite length_replicate; lia).
           rewrite length_replicate.
           rewrite lookup_ge_None_2; [done | simpl; lia].
Qed.

Lemma progress_entries_distribution (σ : heap) m : ∀ acc i,
  NoDup (keys m) →
  Array_get i (bucketDistribution (progress_entries σ m acc))
  = match Map_get (Z.of_nat i) m with
    | Some s => Some (Set_size σ s)
    | None => Array_get i (bucketDistribution acc)
    end.
Proof.
  unfold keys. induction m as [|[k s] m IH]; intros acc i; csimpl; [done|].
  intros [Hk Hnd]%NoDup_cons. rewrite IH by done. simpl.
  destruct (decide (Z.of_nat i = k)) as [<-|Hne].
  - assert (Map_get (Z.of_nat i) m = None) as -> by (by apply Map_get_None).
    unfold Array_set. rewrite decide_True by lia.
    by rewrite Nat2Z.id, Array_get_write, decide_True.
  - destruct (Map_get (Z.of_nat i) m); [done|].
    unfold Array_set. case_decide; [|done].
    rewrite Array_get_write, decide_False; [done | lia].
Qed.

(** X17: for a map, [bucketDistribution] is sparse: at the index of a key it
    has the size of that key's set, and at any other index it has nothing
    ([undefined]), not 0. *)
Theorem computeProgress_map_distribution (σ : heap) m history :
  NoDup (keys m) →
  ∃ p, computeProgress σ (JMap m) history = Returns p ∧
       ∀ i, Array_get i (bucketDistribution p)
            = Set_size σ <$> Map_get (Z.of_nat i) m.
Proof.
  intros Hnd. eexists. split; [done|]. intros i.
  rewrite progress_entries_distribution by done.
  by destruct (Map_get (Z.of_nat i) m).
Qed.

Lemma computeProgress_map_distribution_witness :
  ∃ p, computeProgress heap_three (JMap map_three) JNull = Returns p ∧
       Array_get 3 (bucketDistribution p) = Some 1%nat ∧
       Array_get 1 (bucketDistribution p) = None.
Proof.
  destruct (computeProgress_map_distribution heap_three map_three JNull)
    as (p & Hp & Hdist).
  - compute_done.
  - exists p. rewrite !Hdist. split_and!; [done | by vm_compute | done].
Defined.

(** X18: for a map whose bucket numbers are below 2^32 - 1, the array form
    exists and on it [bucketDistribution] is dense: below the length of the
    array, the entry of a key is the size of that key's set and the entry of
    an index that is not a key is 0, where the distribution computed from
    the map itself has nothing. *)
Theorem computeProgress_array_form_distribution (σ : heap) m history :
  map_ok σ m → index_keys m →
  ∃ a p,
    (toBucketSets σ m).2 = Returns_array a ∧
    computeProgress (toBucketSets σ m).1 (JArray a) history = Returns p ∧
    ∀ i, (i < length a)%nat →
         Array_get i (bucketDistribution p)
         = Some (match Map_get (Z.of_nat i) m with
                 | Some s => Set_size σ s
                 | None => 0%nat
                 end).
Proof.
  intros [Hnd Halloc] Hidx. rewrite Forall_forall in Halloc.
  destruct (toBucketSets_cases σ m) as [(_ & σ' & a0 & _ & Hto)|[? _]];
    [|done].
  set (a := fill_buckets m a0) in Hto.
  rewrite Hto. simpl. exists a. eexists. split_and!; [done | done |].
  intros i Hi.
  destruct (toBucketSets_slots _ _ _ _ Hnd Hto) as [Hold Hslots].
  assert (Forall is_Some a) as Hall.
  { apply Forall_lookup. intros j x Hx.
    destruct (Hslots j) as (s & Hs & _); [by eapply lookup_lt_Some|].
    rewrite Hx in Hs. injection Hs as ->. eauto. }
  rewrite progress_forEach_distribution by done. simpl.
  destruct (Hslots i Hi) as (s & Hs & Hcase).
  unfold Array_get. rewrite list_lookup_fmap, Hs. simpl. f_equal.
  unfold Set_size. destruct (Map_get (Z.of_nat i) m) as [s0|] eqn:Hk.
  - subst s0. rewrite Hold; [done|]. apply Halloc. by eapply Map_get_sets.
  - destruct Hcase as [_ ->]. apply size_empty.
Qed.

Lemma computeProgress_array_form_distribution_witness :
  ∃ a p,
    (toBucketSets heap_three map_three).2 = Returns_array a ∧
    computeProgress (toBucketSets heap_three map_three).1 (JArray a) JNull
    = Returns p ∧
    Array_get 1 (bucketDistribution p) = Some 0%nat.
Proof.
  destruct (computeProgress_array_form_distribution heap_three map_three JNull)
    as (a & p & Ha & Hp & Hdist).
  - split; compute_done.
  - compute_done.
  - exists a, p. split_and!; [done | done |].
    rewrite Hdist; [done|].
    assert (a = match (toBucketSets heap_three map_three).2 with
                | Returns_array a0 => a0 | Throws_RangeError => []
                end) as -> by (by rewrite Ha).
    vm_compute. lia.
Defined.

(** ** [getHint], further *)

(** X19: [getHint] never returns the empty string. *)
Theorem getHint_not_empty (card : Flashcard) : getHint card ≠ [].
Proof.
  unfold getHint. destruct (hint_is_usable (hint card)) eqn:Husable.
  - apply hint_is_usable_spec in Husable as (s & -> & Htext). simpl.
    intros ->. by apply Exists_nil in Htext.
  - case_decide; done.
Qed.

(** ** [practice], further *)

(** X20: [practice] does not touch its input: the set it returns is a new
    object, none of the sets that exist at the call, and each of those has
    the same members after the call. *)
Theorem practice_keeps_sets (σ : heap) buckets day l :
  l ∈ dom σ →
  (practice σ buckets day).2 ≠ l ∧
  contents (practice σ buckets day).1 l = contents σ l.
Proof.
  intros Hl. unfold practice, Set_new. simpl.
  pose proof (is_fresh (dom σ)) as Hfresh.
  assert (fresh (dom σ) ≠ l) as Hne by (intros Heq; by rewrite Heq in Hfresh).
  split; [done|]. by rewrite contents_insert, decide_False.
Qed.

Lemma practice_keeps_sets_witness :
  contents (practice heap_array array_four 10).1 1%positive
  = contents heap_array 1%positive.
Proof.
  refine (proj2 (practice_keeps_sets heap_array array_four 10 1%positive _)).
  compute_done.
Defined.
